(** * secp256k1 (package koblitz): scalar recoding, Jacobian addition and
      the affine entry points, embedded from koblitz_internal.go.

    Go values are embedded as follows.
    - [byte] is the 8-bit byte of the Standard Library, read and written
      through [byte.unsigned] and [byte.of_Z] (which wraps modulo 2^8, as
      Go's uint8 arithmetic does).
    - a [[]byte] is a [list byte]; an index outside the slice makes Go
      panic, which is the [None] of the option monad.
    - [*big.Int] and [*fieldVal] are addresses into a memory [mem] that is
      threaded through every function working on them. *)

From Stdlib Require Import ZArith Lia List Bool Setoid Morphisms.
From coqutil Require Import Byte.
From stdpp Require Import base option list.
Local Open Scope Z_scope.

(** ** Byte slices *)

(** The non-negative integer a big-endian byte slice denotes
    (what [big.Int.SetBytes] computes). *)
Definition be_value (s : list byte) : Z :=
  fold_left (fun acc b => acc * 256 + byte.unsigned b) s 0.

(** Bit [i] (weight 2^i) of a big-endian byte slice: bit [i mod 8] of the
    byte that sits [i / 8] places before the end. *)
Definition bit_at (s : list byte) (i : nat) : bool :=
  match reverse s !! (i / 8)%nat with
  | Some b => Z.testbit (byte.unsigned b) (Z.of_nat (i mod 8))
  | None => false
  end.

(** Sum of 2^i over the bit positions [i < n] that carry a 1-bit. *)
Fixpoint bit_sum_upto (n : nat) (s : list byte) : Z :=
  match n with
  | O => 0
  | S i => bit_sum_upto i s + (if bit_at s i then 2 ^ Z.of_nat i else 0)
  end.

Definition bit_sum (s : list byte) : Z := bit_sum_upto (8 * length s) s.

(** A position carries a non-zero signed digit when either mask has it. *)
Definition digit_nonzero (pos neg : list byte) (i : nat) : bool :=
  bit_at pos i || bit_at neg i.

(** [n] big-endian bytes of [z] (the low [8 n] bits). *)
Fixpoint be_bytes (n : nat) (z : Z) : list byte :=
  match n with
  | O => []
  | S n' => be_bytes n' (z / 256) ++ [byte.of_Z z]
  end.

(** Number of bytes of the shortest big-endian encoding of [z >= 0]. *)
Definition byte_len (z : Z) : nat :=
  if z <=? 0 then O else Z.to_nat (Z.log2 z / 8 + 1).

(** [Bytes] of a [big.Int]: the absolute value, big-endian, no leading zero. *)
Definition big_Bytes (z : Z) : list byte :=
  be_bytes (byte_len (Z.abs z)) (Z.abs z).

(** ** Curve constants ([initS256]) *)

Definition curve_P : Z :=
  0xFFFFFFFFFFFFFFFFFFFFFFFFFFFFFFFFFFFFFFFFFFFFFFFFFFFFFFFEFFFFFC2F.
Definition curve_N : Z :=
  0xFFFFFFFFFFFFFFFFFFFFFFFFFFFFFFFEBAAEDCE6AF48A03BBFD25E8CD0364141.
Definition curve_B : Z := 7.
Definition curve_Gx : Z :=
  0x79BE667EF9DCBBAC55A06295CE870B07029BFCDB2DCE28D959F2815B16F81798.
Definition curve_Gy : Z :=
  0x483ADA7726A3C4655DA4FBFC0E1108A8FD17B448A68554199C47D08FFB10D4B8.
Definition curve_BitSize : Z := 256.
Definition curve_H : Z := 1.
Definition curve_lambda : Z :=
  0x5363AD4CC05C30E0A5261C028812645A122E22EA20816678DF02967C1B23BD72.
Definition curve_beta : Z :=
  0x7AE96A2B657C07106E64479EAC3434E99CF0497512F58995C1396C28719501EE.
Definition curve_a1 : Z := 0x3086D221A7D46BCDE86C90E49284EB15.
Definition curve_b1 : Z := - 0xE4437ED6010E88286F547FA90ABFE4C3.
Definition curve_a2 : Z := 0x114CA50F7A8E2F3F657C1108D9D44CFD8.
Definition curve_b2 : Z := 0x3086D221A7D46BCDE86C90E49284EB15.

(** ** Field elements

    Modelled from the spec: the type [fieldVal] and its methods (field.go)
    are not among the sources.  The spec describes a residue modulo the
    256-bit prime P kept in a deferred-reduction form, with add, negate,
    multiply, square and inverse, construction from a small integer and
    from big-endian bytes, serialization to 32 big-endian bytes, and an
    equality that is defined on normalized operands.  A field value is
    modelled by the integer its limbs carry: sums and negations are left
    unreduced, [fnormalize] brings the value into [0, P), products,
    squares and inverses come back reduced, and equality compares the
    carried integers. *)

Definition fieldPrime : Z := curve_P.

Definition fnormalize (v : Z) : Z := v mod fieldPrime.
Definition fnegate (v magnitude : Z) : Z := (magnitude + 1) * fieldPrime - v.
Definition fmul (a b : Z) : Z := (a * b) mod fieldPrime.

Fixpoint pow_mod (a : Z) (e : positive) (n : Z) : Z :=
  match e with
  | xH => a mod n
  | xO e' => let r := pow_mod a e' n in (r * r) mod n
  | xI e' => let r := pow_mod a e' n in (r * r mod n * a) mod n
  end.

(** The inverse is the power P - 2 (zero is sent to zero). *)
Definition finverse (a : Z) : Z :=
  pow_mod a (Z.to_pos (fieldPrime - 2)) fieldPrime.

(** ** Memory

    Every [fieldVal] and every [big.Int] lives in a cell; pointers are
    cell numbers.  [new] hands out the next unused cell, zeroed. *)

Definition ptr := nat.
Bind Scope nat_scope with ptr.

Record store := Store { next : nat; cell : nat -> Z }.

Definition load (s : store) (p : ptr) : Z := cell s p.

Definition write (s : store) (p : ptr) (v : Z) : store :=
  Store (next s) (fun q => if Nat.eqb q p then v else cell s q).

Definition alloc (s : store) : store :=
  Store (S (next s)) (fun q => if Nat.eqb q (next s) then 0 else cell s q).

Record mem := Mem { fields : store; bigs : store }.

(** Computations on the memory; [None] is a run-time panic. *)
Definition M (A : Type) : Type := mem -> option (A * mem).

#[global] Instance M_ret : MRet M := fun A a m => Some (a, m).
#[global] Instance M_bind : MBind M := fun A B f c m =>
  match c m with
  | Some (a, m') => f a m'
  | None => None
  end.

(** A slice operation that may panic, run inside [M]. *)
Definition lift {A : Type} (o : option A) : M A := fun m =>
  match o with
  | Some a => Some (a, m)
  | None => None
  end.

Definition fget (p : ptr) : M Z := fun m => Some (load (fields m) p, m).
Definition fput (p : ptr) (v : Z) : M unit := fun m =>
  Some (tt, Mem (write (fields m) p v) (bigs m)).
(** [new(fieldVal)], [var f fieldVal] *)
Definition fnew : M ptr := fun m =>
  Some (next (fields m), Mem (alloc (fields m)) (bigs m)).

Definition bget (p : ptr) : M Z := fun m => Some (load (bigs m) p, m).
Definition bput (p : ptr) (v : Z) : M unit := fun m =>
  Some (tt, Mem (fields m) (write (bigs m) p v)).
(** [new(big.Int)] *)
Definition bnew : M ptr := fun m =>
  Some (next (bigs m), Mem (fields m) (alloc (bigs m))).

(** *** Methods of [*fieldVal]: the receiver is updated in place.
    A chain [f.A(..).B(..)] is the sequence [A f ..;; B f ..]. *)

Module fieldVal.
Definition Set_ (f g : ptr) : M unit := v ← fget g; fput f v.
Definition SetInt (f : ptr) (ui : Z) : M unit := fput f ui.
Definition SetByteSlice (f : ptr) (b : list byte) : M unit :=
  fput f (be_value b).
Definition Normalize (f : ptr) : M unit :=
  v ← fget f; fput f (fnormalize v).
Definition Negate (f : ptr) (magnitude : Z) : M unit :=
  v ← fget f; fput f (fnegate v magnitude).
Definition NegateVal (f val : ptr) (magnitude : Z) : M unit :=
  v ← fget val; fput f (fnegate v magnitude).
Definition Add (f g : ptr) : M unit :=
  a ← fget f; b ← fget g; fput f (a + b).
Definition Add2 (f a b : ptr) : M unit :=
  u ← fget a; v ← fget b; fput f (u + v).
Definition AddInt (f : ptr) (ui : Z) : M unit :=
  a ← fget f; fput f (a + ui).
Definition Mul (f g : ptr) : M unit :=
  a ← fget f; b ← fget g; fput f (fmul a b).
Definition Mul2 (f a b : ptr) : M unit :=
  u ← fget a; v ← fget b; fput f (fmul u v).
Definition SquareVal (f a : ptr) : M unit :=
  u ← fget a; fput f (fmul u u).
Definition Inverse (f : ptr) : M unit :=
  a ← fget f; fput f (finverse a).
Definition Equals (f g : ptr) : M bool :=
  a ← fget f; b ← fget g; mret (a =? b).
(** 32 big-endian bytes. *)
Definition Bytes (f : ptr) : M (list byte) :=
  a ← fget f; mret (be_bytes 32 a).
End fieldVal.

(** *** Methods of [*big.Int] (package math/big) used by the curve. *)

Module bigInt.
Definition Sign (x : ptr) : M Z := v ← bget x; mret (Z.sgn v).
Definition Bytes (x : ptr) : M (list byte) := v ← bget x; mret (big_Bytes v).
Definition SetBytes (x : ptr) (b : list byte) : M unit := bput x (be_value b).
End bigInt.

(** ** Jacobian arithmetic *)

(** Modelled from the spec: [doubleJacobian] is not among the sources.
    The spec (4.2) gives the standard doubling formula for a curve with
    a = 0 and the degenerate case: if Y = 0 the result is the point at
    infinity.  The formula is the one of the Explicit-Formulas Database
    (dbl-2009-l); infinity is written as the all-zero triple, as
    [addZ1EqualsZ2] writes it.  The inputs are read before the outputs
    are written, so (x3, y3, z3) may be the cells of (x1, y1, z1). *)
Definition doubleJacobian (x1 y1 z1 x3 y3 z3 : ptr) : M unit :=
  X1 ← fget x1; Y1 ← fget y1; Z1 ← fget z1;
  if fnormalize Y1 =? 0 then
    fput x3 0;; fput y3 0;; fput z3 0
  else
    let A := fmul X1 X1 in
    let B := fmul Y1 Y1 in
    let C := fmul B B in
    let D := 2 * (fmul (X1 + B) (X1 + B) - A - C) in
    let E := 3 * A in
    let F := fmul E E in
    let X3 := fnormalize (F - 2 * D) in
    let Y3 := fnormalize (fmul E (D - X3) - 8 * C) in
    let Z3 := fnormalize (2 * fmul Y1 Z1) in
    fput x3 X3;; fput y3 Y3;; fput z3 Z3.

(** [addZ1EqualsZ2] adds two Jacobian points that share z1. *)
Definition addZ1EqualsZ2 (x1 y1 z1 x2 y2 x3 y3 z3 : ptr) : M unit :=
  fieldVal.Normalize x1;;
  fieldVal.Normalize y1;;
  fieldVal.Normalize x2;;
  fieldVal.Normalize y2;;
  sameX ← fieldVal.Equals x1 x2;
  if sameX : bool then
    sameY ← fieldVal.Equals y1 y2;
    if sameY : bool then
      doubleJacobian x1 y1 z1 x3 y3 z3
    else
      fieldVal.SetInt x3 0;;
      fieldVal.SetInt y3 0;;
      fieldVal.SetInt z3 0
  else
    a ← fnew; b ← fnew; c ← fnew; d ← fnew; e ← fnew; f ← fnew;
    negX1 ← fnew; negY1 ← fnew; negE ← fnew; negX3 ← fnew;
    fieldVal.Set_ negX1 x1;; fieldVal.Negate negX1 1;;
    fieldVal.Set_ negY1 y1;; fieldVal.Negate negY1 1;;
    fieldVal.Set_ a negX1;; fieldVal.Add a x2;;
    fieldVal.SquareVal b a;;
    fieldVal.Set_ c negY1;; fieldVal.Add c y2;;
    fieldVal.SquareVal d c;;
    fieldVal.Mul2 e x1 b;;
    fieldVal.Set_ negE e;; fieldVal.Negate negE 1;;
    fieldVal.Mul2 f x2 b;;
    fieldVal.Add2 x3 e f;; fieldVal.Negate x3 3;; fieldVal.Add x3 d;;
    fieldVal.Set_ negX3 x3;; fieldVal.Negate negX3 5;;
      fieldVal.Normalize negX3;;
    fieldVal.Set_ y3 y1;; fieldVal.Add f negE;; fieldVal.Mul y3 f;;
      fieldVal.Negate y3 3;;
    fieldVal.Add e negX3;; fieldVal.Mul e c;; fieldVal.Add y3 e;;
    fieldVal.Mul2 z3 z1 a;;
    fieldVal.Normalize x3;;
    fieldVal.Normalize y3.

(** Modelled from the spec: [addJacobian] is not among the sources.  The
    spec (4.2): if either operand has Z = 0 the result is the other
    operand; points with equal Z go to the equal-Z path; otherwise the
    general Jacobian addition formula applies (add-2007-bl of the
    Explicit-Formulas Database), in which equal X and equal Y mean
    doubling and equal X with different Y give the point at infinity. *)
Definition addJacobian (x1 y1 z1 x2 y2 z2 x3 y3 z3 : ptr) : M unit :=
  X1 ← fget x1; Y1 ← fget y1; Z1 ← fget z1;
  X2 ← fget x2; Y2 ← fget y2; Z2 ← fget z2;
  if fnormalize Z1 =? 0 then
    fput x3 X2;; fput y3 Y2;; fput z3 Z2
  else if fnormalize Z2 =? 0 then
    fput x3 X1;; fput y3 Y1;; fput z3 Z1
  else if fnormalize Z1 =? fnormalize Z2 then
    addZ1EqualsZ2 x1 y1 z1 x2 y2 x3 y3 z3
  else
    let Z1Z1 := fmul Z1 Z1 in
    let Z2Z2 := fmul Z2 Z2 in
    let U1 := fmul X1 Z2Z2 in
    let U2 := fmul X2 Z1Z1 in
    let S1 := fmul (fmul Y1 Z2) Z2Z2 in
    let S2 := fmul (fmul Y2 Z1) Z1Z1 in
    if U1 =? U2 then
      if S1 =? S2 then doubleJacobian x1 y1 z1 x3 y3 z3
      else fput x3 0;; fput y3 0;; fput z3 0
    else
      let H := U2 - U1 in
      let I := fmul (2 * H) (2 * H) in
      let J := fmul H I in
      let r := 2 * (S2 - S1) in
      let V := fmul U1 I in
      let X3 := fnormalize (fmul r r - J - 2 * V) in
      let Y3 := fnormalize (fmul r (V - X3) - 2 * fmul S1 J) in
      let Z3 := fmul (fmul (Z1 + Z2) (Z1 + Z2) - Z1Z1 - Z2Z2) H in
      fput x3 X3;; fput y3 Y3;; fput z3 Z3.

(** ** Conversions between affine big integers and field values *)

Definition bigAffineToField (x y : ptr) : M (ptr * ptr) :=
  x3 ← fnew; y3 ← fnew;
  xb ← bigInt.Bytes x; fieldVal.SetByteSlice x3 xb;;
  yb ← bigInt.Bytes y; fieldVal.SetByteSlice y3 yb;;
  mret (x3, y3).

Definition fieldJacobianToBigAffine (x y z : ptr) : M (ptr * ptr) :=
  zInv ← fnew; tempZ ← fnew;
  fieldVal.Set_ zInv z;; fieldVal.Inverse zInv;;
  fieldVal.SquareVal tempZ zInv;;
  fieldVal.Mul x tempZ;;
  fieldVal.Mul tempZ zInv;; fieldVal.Mul y tempZ;;
  fieldVal.SetInt z 1;;
  fieldVal.Normalize x;;
  fieldVal.Normalize y;;
  x3 ← bnew; y3 ← bnew;
  xb ← fieldVal.Bytes x; bigInt.SetBytes x3 xb;;
  yb ← fieldVal.Bytes y; bigInt.SetBytes y3 yb;;
  mret (x3, y3).

(** ** The affine entry points *)

Definition Add (x1 y1 x2 y2 : ptr) : M (ptr * ptr) :=
  sx1 ← bigInt.Sign x1; sy1 ← bigInt.Sign y1;
  if (sx1 =? 0) && (sy1 =? 0) then mret (x2, y2) else
  sx2 ← bigInt.Sign x2; sy2 ← bigInt.Sign y2;
  if (sx2 =? 0) && (sy2 =? 0) then mret (x1, y1) else
  '(fx1, fy1) ← bigAffineToField x1 y1;
  '(fx2, fy2) ← bigAffineToField x2 y2;
  fx3 ← fnew; fy3 ← fnew; fz3 ← fnew;
  fOne ← fnew; fieldVal.SetInt fOne 1;;
  addJacobian fx1 fy1 fOne fx2 fy2 fOne fx3 fy3 fz3;;
  fieldJacobianToBigAffine fx3 fy3 fz3.

Definition Double (x1 y1 : ptr) : M (ptr * ptr) :=
  sy1 ← bigInt.Sign y1;
  if sy1 =? 0 then
    r1 ← bnew; r2 ← bnew; mret (r1, r2)
  else
    '(fx1, fy1) ← bigAffineToField x1 y1;
    fx3 ← fnew; fy3 ← fnew; fz3 ← fnew;
    fOne ← fnew; fieldVal.SetInt fOne 1;;
    doubleJacobian fx1 fy1 fOne fx3 fy3 fz3;;
    fieldJacobianToBigAffine fx3 fy3 fz3.

Definition IsOnCurve (x y : ptr) : M bool :=
  '(fx, fy) ← bigAffineToField x y;
  y2 ← fnew; fieldVal.SquareVal y2 fy;; fieldVal.Normalize y2;;
  result ← fnew;
  fieldVal.SquareVal result fx;; fieldVal.Mul result fx;;
  fieldVal.AddInt result 7;; fieldVal.Normalize result;;
  fieldVal.Equals y2 result.

(** ** NAF *)

Record naf_state := NafState {
  carry : bool;
  retPos : list byte;
  retNeg : list byte
}.

(** [s[i] += 1 << j] on a byte slice. *)
Definition add_shl (s : list byte) (i : nat) (j : Z) : option (list byte) :=
  old ← s !! i;
  Some (<[i := byte.of_Z (byte.unsigned old + Z.shiftl 1 j)]> s).

(** The look-ahead of the inner loop: the bit that follows the current one,
    taken from the next more significant byte at [j = 7]. *)
Definition naf_next (k : list byte) (i : nat) (j : Z) (curByte : byte)
    : option bool :=
  if j =? 7 then
    if Nat.eqb i 0 then Some false
    else prev ← k !! (i - 1)%nat;
         Some (Z.land (byte.unsigned prev) 1 =? 1)
  else Some (Z.land (byte.unsigned curByte) 2 =? 2).

(** Body of the inner loop of [NAF], without the final [curByte >>= 1]. *)
Definition naf_step (k : list byte) (i : nat) (j : Z) (curByte : byte)
    (st : naf_state) : option naf_state :=
  let curIsOne := Z.land (byte.unsigned curByte) 1 =? 1 in
  nextIsOne ← naf_next k i j curByte;
  if carry st then
    if curIsOne then Some st
    else if (nextIsOne : bool) then
      neg ← add_shl (retNeg st) (i + 1)%nat j;
      Some (NafState (carry st) (retPos st) neg)
    else
      pos ← add_shl (retPos st) (i + 1)%nat j;
      Some (NafState false pos (retNeg st))
  else if curIsOne then
    if nextIsOne then
      neg ← add_shl (retNeg st) (i + 1)%nat j;
      Some (NafState true (retPos st) neg)
    else
      pos ← add_shl (retPos st) (i + 1)%nat j;
      Some (NafState (carry st) pos (retNeg st))
  else Some st.

(** [for j := uint(0); j < 8; j++ { ...; curByte >>= 1 }]: [n] counts the
    iterations that are left, 8 at the start. *)
Fixpoint naf_byte (n : nat) (k : list byte) (i : nat) (j : Z)
    (curByte : byte) (st : naf_state) : option naf_state :=
  match n with
  | O => Some st
  | S n' =>
      st' ← naf_step k i j curByte st;
      naf_byte n' k i (j + 1)
        (byte.of_Z (Z.shiftr (byte.unsigned curByte) 1)) st'
  end.

(** [for i := len(k) - 1; i >= 0; i--]: the argument is [i + 1]. *)
Fixpoint naf_loop (n : nat) (k : list byte) (st : naf_state)
    : option naf_state :=
  match n with
  | O => Some st
  | S i =>
      curByte ← k !! i;
      st' ← naf_byte 8 k i 0 curByte st;
      naf_loop i k st'
  end.

Definition NAF (k : list byte) : option (list byte * list byte) :=
  let st0 := NafState false (replicate (length k + 1) Byte.x00)
                            (replicate (length k + 1) Byte.x00) in
  st ← naf_loop (length k) k st0;
  if carry st then
    _ ← retPos st !! 0%nat;
    Some (<[0%nat := Byte.x01]> (retPos st), retNeg st)
  else
    Some (drop 1 (retPos st), drop 1 (retNeg st)).

(** ** Scalar reduction and splitting *)

(** Modelled from the spec: [moduloReduce] is not among the sources.  The
    spec (4.5) says it reduces an arbitrary-length input scalar into the
    range [0, N); the result is handed on as the bytes of that integer,
    in the encoding of [big.Int.Bytes].  The spec does not settle the
    encoding (4.7 speaks of a fixed-width byte sequence, 3 of raw bytes);
    the shortest one is taken here, so zero is the empty slice. *)
Definition moduloReduce (k : list byte) : list byte :=
  big_Bytes (be_value k mod curve_N).

(** Nearest integer to [a / n], for [n > 0]. *)
Definition round_div (a n : Z) : Z := (2 * a + n) / (2 * n).

(** Modelled from the spec: [splitK] is not among the sources.  The spec
    (4.5): c1 = round(b2 k / N), c2 = round(- b1 k / N),
    k1 = k - c1 a1 - c2 a2, k2 = - (c1 b1 + c2 b2); the magnitudes are
    returned as bytes and the signs separately. *)
Definition splitK (k : list byte) : list byte * list byte * Z * Z :=
  let K := be_value k in
  let c1 := round_div (curve_b2 * K) curve_N in
  let c2 := round_div (- curve_b1 * K) curve_N in
  let k1 := K - c1 * curve_a1 - c2 * curve_a2 in
  let k2 := - (c1 * curve_b1 + c2 * curve_b2) in
  (big_Bytes k1, big_Bytes k2, Z.sgn k1, Z.sgn k2).

(** ** ScalarMult *)

(** [b <<= 1] on a byte. *)
Definition byte_shl1 (b : byte) : byte :=
  byte.of_Z (Z.shiftl (byte.unsigned b) 1).

(** [b & 0x80 == 0x80] *)
Definition top_bit (b : byte) : bool :=
  Z.land (byte.unsigned b) 0x80 =? 0x80.

Section ScalarMultLoops.
Variables qx qy qz : ptr.
Variables p1x p1y p1yNeg p1z : ptr.
Variables p2x p2y p2yNeg p2z : ptr.

(** [for j := 7; j >= 0; j--]: [n] is [j + 1]. *)
Fixpoint scalarMult_bits (n : nat)
    (k1BytePos k1ByteNeg k2BytePos k2ByteNeg : byte) : M unit :=
  match n with
  | O => mret tt
  | S j =>
      doubleJacobian qx qy qz qx qy qz;;
      (if top_bit k1BytePos then
         addJacobian qx qy qz p1x p1y p1z qx qy qz
       else if top_bit k1ByteNeg then
         addJacobian qx qy qz p1x p1yNeg p1z qx qy qz
       else mret tt);;
      (if top_bit k2BytePos then
         addJacobian qx qy qz p2x p2y p2z qx qy qz
       else if top_bit k2ByteNeg then
         addJacobian qx qy qz p2x p2yNeg p2z qx qy qz
       else mret tt);;
      scalarMult_bits j (byte_shl1 k1BytePos) (byte_shl1 k1ByteNeg)
                        (byte_shl1 k2BytePos) (byte_shl1 k2ByteNeg)
  end.

Variables k1PosNAF k1NegNAF k2PosNAF k2NegNAF : list byte.
Variable m : nat.

(** The two bytes of one NAF at step [i], front-padded with zeros. *)
Definition naf_bytes_at (pos neg : list byte) (len i : nat)
    : option (byte * byte) :=
  if (i <? m - len)%nat then Some (Byte.x00, Byte.x00)
  else
    bp ← pos !! (i - (m - len))%nat;
    bn ← neg !! (i - (m - len))%nat;
    Some (bp, bn).

(** [for i := 0; i < m; i++]: [n] iterations are left. *)
Fixpoint scalarMult_bytes (n i : nat) : M unit :=
  match n with
  | O => mret tt
  | S n' =>
      '(k1BytePos, k1ByteNeg) ←
        lift (naf_bytes_at k1PosNAF k1NegNAF (length k1PosNAF) i);
      '(k2BytePos, k2ByteNeg) ←
        lift (naf_bytes_at k2PosNAF k2NegNAF (length k2PosNAF) i);
      scalarMult_bits 8 k1BytePos k1ByteNeg k2BytePos k2ByteNeg;;
      scalarMult_bytes n' (S i)
  end.
End ScalarMultLoops.

Definition ScalarMult (Bx By : ptr) (k : list byte) : M (ptr * ptr) :=
  qx ← fnew; qy ← fnew; qz ← fnew;
  let '(k1, k2, signK1, signK2) := splitK (moduloReduce k) in
  '(p1x, p1y) ← bigAffineToField Bx By;
  p1yNeg ← fnew; fieldVal.NegateVal p1yNeg p1y 1;;
  p1z ← fnew; fieldVal.SetInt p1z 1;;
  (* curve.beta, a cell that is only read *)
  beta ← fnew; fieldVal.SetInt beta curve_beta;;
  p2x ← fnew; fieldVal.Mul2 p2x p1x beta;;
  p2y ← fnew; fieldVal.Set_ p2y p1y;;
  p2yNeg ← fnew; fieldVal.NegateVal p2yNeg p2y 1;;
  p2z ← fnew; fieldVal.SetInt p2z 1;;
  let '(p1y, p1yNeg) :=
    if signK1 =? -1 then (p1yNeg, p1y) else (p1y, p1yNeg) in
  let '(p2y, p2yNeg) :=
    if signK2 =? -1 then (p2yNeg, p2y) else (p2y, p2yNeg) in
  '(k1PosNAF, k1NegNAF) ← lift (NAF k1);
  '(k2PosNAF, k2NegNAF) ← lift (NAF k2);
  let k1Len := length k1PosNAF in
  let k2Len := length k2PosNAF in
  let m := if (k1Len <? k2Len)%nat then k2Len else k1Len in
  scalarMult_bytes qx qy qz p1x p1y p1yNeg p1z p2x p2y p2yNeg p2z
    k1PosNAF k1NegNAF k2PosNAF k2NegNAF m m 0;;
  fieldJacobianToBigAffine qx qy qz.

(** ** ScalarBaseMult *)

(** [curve.bytePoints[w][b]] on the table of type [[32][256][3]fieldVal];
    an index outside the array panics. *)
Definition bytePoints_at (bytePoints : Z -> Z -> Z * Z * Z) (w b : Z)
    : option (Z * Z * Z) :=
  if (0 <=? w) && (w <? 32) && (0 <=? b) && (b <? 256)
  then Some (bytePoints w b) else None.

Section ScalarBaseMultLoop.
(** The precomputed table is data that is loaded at start-up; it is a
    parameter of the multiplication. *)
Variable bytePoints : Z -> Z -> Z * Z * Z.
Variable diff : Z.
Variables qx qy qz : ptr.

(** [for i, byteVal := range newK]; [p] is a copy of the table entry. *)
Fixpoint scalarBaseMult_loop (i : Z) (newK : list byte) : M unit :=
  match newK with
  | [] => mret tt
  | byteVal :: rest =>
      '(v0, v1, v2) ←
        lift (bytePoints_at bytePoints (diff + i) (byte.unsigned byteVal));
      p0 ← fnew; fput p0 v0;;
      p1 ← fnew; fput p1 v1;;
      p2 ← fnew; fput p2 v2;;
      addJacobian qx qy qz p0 p1 p2 qx qy qz;;
      scalarBaseMult_loop (i + 1) rest
  end.
End ScalarBaseMultLoop.

Definition ScalarBaseMult (bytePoints : Z -> Z -> Z * Z * Z) (k : list byte)
    : M (ptr * ptr) :=
  let newK := moduloReduce k in
  let diff := 32 - Z.of_nat (length newK) in
  qx ← fnew; qy ← fnew; qz ← fnew;
  scalarBaseMult_loop bytePoints diff qx qy qz 0 newK;;
  fieldJacobianToBigAffine qx qy qz.

Definition empty_store : store := Store 0 (fun _ => 0).

(** A memory whose big integers are the given list, in cells 0, 1, ... *)
Definition mem_of_bigs (l : list Z) : mem :=
  Mem empty_store (Store (length l) (fun p => nth p l 0)).

(** A memory whose field values are the given list. *)
Definition mem_of_fields (l : list Z) : mem :=
  Mem (Store (length l) (fun p => nth p l 0)) empty_store.

(** The values of a returned pair of big integers. *)
Definition big_result (r : option (ptr * ptr * mem)) : option (Z * Z) :=
  match r with
  | Some (x, y, m) => Some (load (bigs m) x, load (bigs m) y)
  | None => None
  end.

(** ** Definitions used in the statements and proofs *)

(** ** Field cells of a memory *)

Definition fld (m : mem) (p : ptr) : Z := load (fields m) p.
Definition fwrite (m : mem) (p : ptr) (v : Z) : mem :=
  Mem (write (fields m) p v) (bigs m).
Definition falloc (m : mem) : mem := Mem (alloc (fields m)) (bigs m).
Definition fnext (m : mem) : nat := next (fields m).

Definition big (m : mem) (p : ptr) : Z := load (bigs m) p.
Definition bwrite (m : mem) (p : ptr) (v : Z) : mem :=
  Mem (fields m) (write (bigs m) p v).
Definition balloc (m : mem) : mem := Mem (fields m) (alloc (bigs m)).
Definition bnext (m : mem) : nat := next (bigs m).


(** Congruence modulo the field prime. *)
Definition feq (a b : Z) : Prop := a mod fieldPrime = b mod fieldPrime.

(** The memory after [Normalize p], and after the four normalizations
    that open [addZ1EqualsZ2]. *)
Definition normalized (p : ptr) (m : mem) : mem :=
  fwrite m p (fnormalize (fld m p)).

Definition normalized4 (x1 y1 x2 y2 : ptr) (m : mem) : mem :=
  normalized y2 (normalized x2 (normalized y1 (normalized x1 m))).

(** A program that cannot panic. *)
Definition total {A : Type} (c : M A) : Prop :=
  forall m, exists a m', c m = Some (a, m').

(** The cells that hold a coordinate of one of the two input points of
    [ScalarMult]. *)
Definition point_coords (p1x p1y p1yNeg p2x p2y p2yNeg : ptr) : list ptr :=
  [p1x; p1y; p1yNeg; p2x; p2y; p2yNeg].

(** The accumulator (qx, qy) and the listed cells are zero in the field,
    and [top] is the next free cell. *)
Definition zero_coords (qx qy : ptr) (cs : list ptr) (top : nat) (m : mem)
    : Prop :=
  fnext m = top /\ feq (fld m qx) 0 /\ feq (fld m qy) 0 /\
  Forall (fun p => feq (fld m p) 0) cs.

(** ** The recoding on integers

    [naf_abs] is the effect of one pass of the inner loop on the carry flag
    and on the values of the two masks, at bit position [t], with [cur] the
    current bit and [nxt] the following one. *)

Definition naf_abs (cur nxt : bool) (t : Z) (a : bool * Z * Z) : bool * Z * Z :=
  let '(c, P, N) := a in
  if c then
    if cur then (c, P, N)
    else if nxt then (c, P, N + 2 ^ t) else (false, P + 2 ^ t, N)
  else if cur then
    if nxt then (true, P, N + 2 ^ t) else (c, P + 2 ^ t, N)
  else (c, P, N).

Definition nz (P N u : Z) : bool := Z.testbit P u || Z.testbit N u.

Record naf_inv (K t : Z) (c : bool) (P N : Z) : Prop := NafInv {
  inv_val : P - N + Z.b2z c * 2 ^ t = K mod 2 ^ t;
  inv_pos : 0 <= P < 2 ^ t;
  inv_neg : 0 <= N < 2 ^ t;
  inv_excl : forall u, 0 <= u -> Z.testbit P u && Z.testbit N u = false;
  inv_adj : forall u, 0 <= u -> nz P N u = true -> nz P N (u + 1) = false;
  inv_link : nz P N (t - 1) = true -> c = Z.testbit K t
}.

Definition naf_ok (k : list byte) (t : Z) (st : naf_state) : Prop :=
  length (retPos st) = S (length k) /\
  length (retNeg st) = S (length k) /\
  naf_inv (be_value k) t (carry st)
          (be_value (retPos st)) (be_value (retNeg st)).


(** Memories for the examples. *)
Definition mem_xyz : mem := mem_of_fields [4; 8; 2].

Definition mem_two_points : mem := mem_of_fields [1; 2; 3; 4; 6; 0; 0; 0].

Definition mem_same_point : mem := mem_of_fields [1; 2; 3; 1; 2; 0; 0; 0].
Definition mem_opposite : mem := mem_of_fields [1; 2; 3; 1; 5; 0; 0; 0].


(** ** Footprints

    [keeps n0 b0 S m m']: from [m] to [m'] no cell was freed, every field
    cell below [n0] outside [S] and every big integer below [b0] has kept
    its value. *)
Definition keeps (n0 b0 : nat) (S : ptr -> Prop) (m m' : mem) : Prop :=
  (fnext m <= fnext m')%nat /\ (bnext m <= bnext m')%nat /\
  (forall r, (r < n0)%nat -> ~ S r -> fld m' r = fld m r) /\
  (forall r, (r < b0)%nat -> big m' r = big m r).

(** [safe n0 b0 S c Q]: started in a memory whose cells below [n0] and
    [b0] are in use, [c] returns a result satisfying [Q] and writes only
    to cells of [S] or to cells from [n0], [b0] on. *)
Definition safe {A : Type} (n0 b0 : nat) (S : ptr -> Prop) (c : M A)
    (Q : A -> Prop) : Prop :=
  forall m, (n0 <= fnext m)%nat -> (b0 <= bnext m)%nat ->
  exists a m', c m = Some (a, m') /\ Q a /\ keeps n0 b0 S m m'.

(** No cell of the caller. *)
Definition no_cell : ptr -> Prop := fun _ => False.

(** The values of the two big integers a call returns. *)
Definition returned (r : option (ptr * ptr * mem)) : option (Z * Z) :=
  match r with
  | Some (x, y, m) => Some (big m x, big m y)
  | None => None
  end.

(** The triple [doubleJacobian] writes, as a function of the triple it
    reads. *)
Definition double_values (X1 Y1 Z1 : Z) : Z * Z * Z :=
  if fnormalize Y1 =? 0 then (0, 0, 0)
  else
    let A := fmul X1 X1 in
    let B := fmul Y1 Y1 in
    let C := fmul B B in
    let D := 2 * (fmul (X1 + B) (X1 + B) - A - C) in
    let E := 3 * A in
    let F := fmul E E in
    let X3 := fnormalize (F - 2 * D) in
    let Y3 := fnormalize (fmul E (D - X3) - 8 * C) in
    let Z3 := fnormalize (2 * fmul Y1 Z1) in
    (X3, Y3, Z3).

(** The affine pair [fieldJacobianToBigAffine] computes from a triple. *)
Definition affine_of (t : Z * Z * Z) : Z * Z :=
  let '(X, Y, Z) := t in
  let zInv := finverse Z in
  (fnormalize (fmul X (fmul zInv zInv)),
   fnormalize (fmul Y (fmul (fmul zInv zInv) zInv))).

(** [secp256k1.q] and [secp256k1.halfOrder], as [initS256] computes them. *)
Definition curve_q : Z := (curve_P + 1) / 4.
Definition curve_halfOrder : Z := Z.shiftr curve_N 1.

(** ** Test vectors *)

Example NAF_7 :
  NAF [Byte.x07] = Some ([Byte.x08], [Byte.x01]).
Proof. reflexivity. Qed.

Example NAF_255_1 :
  NAF [Byte.xff; Byte.x01]
  = Some ([Byte.x01; Byte.x00; Byte.x01], [Byte.x00; Byte.x01; Byte.x00]).
Proof. reflexivity. Qed.

Example NAF_empty : NAF [] = Some ([], []).
Proof. reflexivity. Qed.

(** ** Big-endian values of byte slices *)

Lemma be_value_snoc (s : list byte) (b : byte) :
  be_value (s ++ [b]) = be_value s * 256 + byte.unsigned b.
Proof. unfold be_value. rewrite fold_left_app. reflexivity. Qed.

Lemma be_value_nonneg (s : list byte) : 0 <= be_value s.
Proof.
  induction s as [|b s IH] using rev_ind; [reflexivity|].
  rewrite be_value_snoc. pose proof (byte.unsigned_range b). lia.
Qed.

Lemma be_value_cons (b : byte) (s : list byte) :
  be_value (b :: s)
  = byte.unsigned b * 2 ^ (8 * Z.of_nat (length s)) + be_value s.
Proof.
  induction s as [|c s IH] using rev_ind.
  - cbn. lia.
  - rewrite app_comm_cons, !be_value_snoc, IH, length_app. cbn [length].
    replace (8 * Z.of_nat (length s + 1)) with (8 * Z.of_nat (length s) + 8) by lia.
    rewrite Z.pow_add_r by lia. change (2 ^ 8) with 256. ring.
Qed.

Lemma be_value_lt (s : list byte) : be_value s < 2 ^ (8 * Z.of_nat (length s)).
Proof.
  induction s as [|b s IH]; [reflexivity|].
  rewrite be_value_cons. cbn [length].
  replace (8 * Z.of_nat (S (length s))) with (8 + 8 * Z.of_nat (length s)) by lia.
  rewrite Z.pow_add_r by lia. change (2 ^ 8) with 256.
  pose proof (byte.unsigned_range b). change (2 ^ 8) with 256 in *. nia.
Qed.

Lemma be_value_replicate_zero (n : nat) : be_value (replicate n Byte.x00) = 0.
Proof.
  induction n as [|n IH]; [reflexivity|].
  cbn [replicate]. rewrite be_value_cons, IH. reflexivity.
Qed.

Lemma be_value_insert (s : list byte) (i : nat) (old v : byte) :
  s !! i = Some old ->
  be_value (<[i := v]> s)
  = be_value s
    + (byte.unsigned v - byte.unsigned old)
      * 2 ^ (8 * (Z.of_nat (length s) - 1 - Z.of_nat i)).
Proof.
  revert i. induction s as [|b s IH]; intros i Hi; [discriminate|].
  destruct i as [|i]; cbn in Hi.
  - inversion Hi; subst. cbn [list_insert insert]. 
    change (<[0%nat:=v]> (old :: s)) with (v :: s).
    rewrite !be_value_cons. cbn [length].
    replace (8 * (Z.of_nat (S (length s)) - 1 - Z.of_nat 0)) with (8 * Z.of_nat (length s)) by lia.
    ring.
  - change (<[S i:=v]> (b :: s)) with (b :: <[i:=v]> s).
    rewrite !be_value_cons, length_insert, (IH _ Hi). cbn [length].
    replace (8 * (Z.of_nat (S (length s)) - 1 - Z.of_nat (S i)))
      with (8 * (Z.of_nat (length s) - 1 - Z.of_nat i)) by lia.
    ring.
Qed.

Lemma be_value_lookup (s : list byte) (i : nat) (b : byte) :
  s !! i = Some b ->
  byte.unsigned b
  = (be_value s / 2 ^ (8 * (Z.of_nat (length s) - 1 - Z.of_nat i))) mod 256.
Proof.
  revert i. induction s as [|c s IH]; intros i Hi; [discriminate|].
  pose proof (be_value_lt s) as Hlt. pose proof (be_value_nonneg s) as Hge.
  rewrite be_value_cons. destruct i as [|i]; cbn in Hi.
  - inversion Hi; subst. cbn [length].
    replace (8 * (Z.of_nat (S (length s)) - 1 - Z.of_nat 0)) with (8 * Z.of_nat (length s)) by lia.
    rewrite Z.div_add_l by (apply Z.pow_nonzero; lia).
    rewrite (Z.div_small (be_value s)) by lia.
    rewrite Z.add_0_r. symmetry. apply Z.mod_small. apply (byte.unsigned_range b).
  - pose proof (lookup_lt_Some _ _ _ Hi) as Hlen.
    rewrite (IH _ Hi). cbn [length].
    replace (8 * (Z.of_nat (S (length s)) - 1 - Z.of_nat (S i)))
      with (8 * (Z.of_nat (length s) - 1 - Z.of_nat i)) by lia.
    set (e := 8 * (Z.of_nat (length s) - 1 - Z.of_nat i)).
    replace (8 * Z.of_nat (length s)) with (e + (8 + 8 * Z.of_nat i)) by lia.
    rewrite Z.pow_add_r by lia.
    rewrite (Z.mul_comm (2 ^ e)), Z.mul_assoc.
    rewrite Z.div_add_l by (apply Z.pow_nonzero; lia).
    rewrite Z.pow_add_r by lia. change (2 ^ 8) with 256.
    rewrite (Z.mul_comm 256), Z.mul_assoc, Z.add_comm, Z.mod_add by lia.
    reflexivity.
Qed.

Lemma be_value_drop1 (s : list byte) :
  be_value s < 2 ^ (8 * (Z.of_nat (length s) - 1)) ->
  be_value (drop 1 s) = be_value s.
Proof.
  destruct s as [|b s]; [reflexivity|]. cbn [length drop].
  rewrite be_value_cons.
  replace (8 * (Z.of_nat (S (length s)) - 1)) with (8 * Z.of_nat (length s)) by lia.
  intros H. pose proof (be_value_nonneg s). pose proof (byte.unsigned_range b).
  assert (byte.unsigned b = 0) by nia. rewrite drop_0. lia.
Qed.

(** ** Bits of a byte slice and of its value *)

Lemma byte_bit_of_value (s : list byte) (i : nat) (b : byte) (j : Z) :
  s !! i = Some b -> 0 <= j < 8 ->
  Z.testbit (byte.unsigned b) j
  = Z.testbit (be_value s) (8 * (Z.of_nat (length s) - 1 - Z.of_nat i) + j).
Proof.
  intros Hi Hj. pose proof (lookup_lt_Some _ _ _ Hi) as Hlen.
  rewrite (be_value_lookup _ _ _ Hi). change 256 with (2 ^ 8).
  rewrite Z.mod_pow2_bits_low by lia.
  rewrite Z.div_pow2_bits by lia. f_equal. lia.
Qed.

Lemma testbit_above (x t u : Z) :
  0 <= x < 2 ^ t -> t <= u -> Z.testbit x u = false.
Proof.
  intros Hx Hu. destruct (Z.lt_ge_cases t 0) as [Ht|Ht].
  - rewrite Z.pow_neg_r in Hx by lia. lia.
  - rewrite <- (Z.mod_small x (2 ^ t)) by lia.
    apply Z.mod_pow2_bits_high. lia.
Qed.

Lemma bit_at_testbit (s : list byte) (i : nat) :
  bit_at s i = Z.testbit (be_value s) (Z.of_nat i).
Proof.
  unfold bit_at.
  assert (Hq : Z.of_nat (i / 8) = Z.of_nat i / 8) by (rewrite Nat2Z.inj_div; reflexivity).
  assert (Hr : Z.of_nat (i mod 8) = Z.of_nat i mod 8) by (rewrite Nat2Z.inj_mod; reflexivity).
  pose proof (Z.div_mod (Z.of_nat i) 8 ltac:(lia)) as Hdm.
  pose proof (Z.mod_pos_bound (Z.of_nat i) 8 ltac:(lia)) as Hmb.
  destruct (reverse s !! (i / 8)%nat) as [b|] eqn:E.
  - pose proof (lookup_lt_Some _ _ _ E) as Hlen. rewrite length_reverse in Hlen.
    rewrite reverse_lookup in E by lia.
    rewrite (byte_bit_of_value _ _ _ _ E) by lia.
    f_equal. lia.
  - apply lookup_ge_None in E. rewrite length_reverse in E.
    symmetry. apply (testbit_above _ (8 * Z.of_nat (length s))).
    + split; [apply be_value_nonneg | apply be_value_lt].
    + lia.
Qed.

Lemma bit_sum_upto_mod (s : list byte) (n : nat) :
  bit_sum_upto n s = be_value s mod 2 ^ Z.of_nat n.
Proof.
  induction n as [|n IH].
  - cbn. rewrite Z.mod_1_r. reflexivity.
  - cbn [bit_sum_upto]. rewrite IH, bit_at_testbit.
    set (V := be_value s). set (t := Z.of_nat n).
    replace (Z.of_nat (S n)) with (t + 1) by lia.
    assert (Ht : 0 <= t) by lia.
    pose proof (Z.testbit_spec' V t Ht) as Hb.
    assert (H2 : 0 < 2 ^ t) by (apply Z.pow_pos_nonneg; lia).
    rewrite Z.pow_add_r by lia. change (2 ^ 1) with 2.
    rewrite Z.rem_mul_r by lia.
    destruct (Z.testbit V t); cbn [Z.b2z] in Hb; rewrite <- Hb; lia.
Qed.

Lemma bit_sum_value (s : list byte) : bit_sum s = be_value s.
Proof.
  unfold bit_sum. rewrite bit_sum_upto_mod.
  apply Z.mod_small. split; [apply be_value_nonneg|].
  replace (Z.of_nat (8 * length s)) with (8 * Z.of_nat (length s)) by lia.
  apply be_value_lt.
Qed.

(** ** Single-bit tests as written in the source *)

Lemma land_1_eqb (x : Z) : (Z.land x 1 =? 1) = Z.testbit x 0.
Proof.
  change 1 with (Z.ones 1) at 1. rewrite Z.land_ones by lia.
  change (2 ^ 1) with 2. symmetry. apply Z.bit0_eqb.
Qed.

Lemma land_pow2 (x n : Z) :
  0 <= n -> Z.land x (2 ^ n) = if Z.testbit x n then 2 ^ n else 0.
Proof.
  intros Hn. apply Z.bits_inj'. intros m Hm.
  rewrite Z.land_spec, Z.pow2_bits_eqb by lia.
  destruct (Z.eqb_spec n m) as [->|Hne].
  - rewrite andb_true_r. destruct (Z.testbit x m) eqn:E.
    + rewrite Z.pow2_bits_true; auto.
    + rewrite Z.bits_0. reflexivity.
  - rewrite andb_false_r. destruct (Z.testbit x n).
    + rewrite Z.pow2_bits_false; auto.
    + rewrite Z.bits_0. reflexivity.
Qed.

Lemma land_2_eqb (x : Z) : (Z.land x 2 =? 2) = Z.testbit x 1.
Proof.
  change 2 with (2 ^ 1) at 1 2. rewrite land_pow2 by lia.
  destruct (Z.testbit x 1); reflexivity.
Qed.

Lemma testbit_add_pow2 (x t u : Z) :
  0 <= x < 2 ^ t -> 0 <= t -> 0 <= u ->
  Z.testbit (x + 2 ^ t) u = (u =? t) || Z.testbit x u.
Proof.
  intros Hx Ht Hu.
  assert (Hl : Z.land x (2 ^ t) = 0).
  { rewrite land_pow2 by lia. rewrite (testbit_above x t t) by lia. reflexivity. }
  rewrite Z.add_nocarry_lxor by exact Hl.
  rewrite Z.lxor_spec, Z.pow2_bits_eqb by lia.
  destruct (Z.eqb_spec u t) as [->|Hne].
  - rewrite Z.eqb_refl, (testbit_above x t t) by lia. reflexivity.
  - replace (t =? u) with false by (symmetry; apply Z.eqb_neq; lia).
    rewrite xorb_false_r. reflexivity.
Qed.

Lemma naf_inv_init (K : Z) : naf_inv K 0 false 0 0.
Proof.
  split; cbn; try lia.
  - rewrite Z.mod_1_r. reflexivity.
  - intros. rewrite Z.bits_0. reflexivity.
  - intros u _. unfold nz. rewrite !Z.bits_0. discriminate.
  - unfold nz. cbn. discriminate.
Qed.

Lemma mod_pow2_succ (K t : Z) :
  0 <= t -> K mod 2 ^ (t + 1) = K mod 2 ^ t + Z.b2z (Z.testbit K t) * 2 ^ t.
Proof.
  intros Ht. rewrite Z.testbit_spec' by lia.
  assert (0 < 2 ^ t) by (apply Z.pow_pos_nonneg; lia).
  rewrite Z.pow_add_r by lia. change (2 ^ 1) with 2.
  rewrite Z.rem_mul_r by lia. lia.
Qed.

Ltac bits_case u t :=
  destruct (Z.eqb_spec u t); subst; rewrite ?orb_true_l, ?orb_false_l,
    ?andb_true_l, ?andb_false_l, ?andb_true_r, ?andb_false_r,
    ?orb_true_r, ?orb_false_r.

Lemma naf_abs_inv (K t : Z) (c : bool) (P N : Z) :
  0 <= t -> naf_inv K t c P N ->
  let '(c', P', N') := naf_abs (Z.testbit K t) (Z.testbit K (t + 1)) t (c, P, N) in
  naf_inv K (t + 1) c' P' N'.
Proof.
  intros Ht [Hval HP HN Hex Hadj Hlink].
  assert (H2 : 0 < 2 ^ t) by (apply Z.pow_pos_nonneg; lia).
  assert (Hs : 2 ^ (t + 1) = 2 * 2 ^ t).
  { rewrite Z.pow_add_r by lia. change (2 ^ 1) with 2. lia. }
  pose proof (mod_pow2_succ K t Ht) as Hmod.
  assert (HPt : forall u, t <= u -> Z.testbit P u = false)
    by (intros; apply (testbit_above P t); lia).
  assert (HNt : forall u, t <= u -> Z.testbit N u = false)
    by (intros; apply (testbit_above N t); lia).
  assert (Hnzt : forall u, t <= u -> nz P N u = false)
    by (intros; unfold nz; rewrite HPt, HNt by lia; reflexivity).
  unfold naf_abs.
  destruct c, (Z.testbit K t) eqn:Ecur, (Z.testbit K (t + 1)) eqn:Enxt;
    cbn [Z.b2z] in *.
  all: rewrite Hs in Hmod.
  all: split; replace (t + 1 - 1) with t by lia; rewrite ?Hs; cbn [Z.b2z]; try lia.
  all: try (intros _; congruence).
  all: try (intros u Hu; apply Hex; exact Hu).
  all: try (intros u Hu; apply Hadj; exact Hu).
  all: try (rewrite Hnzt by lia; discriminate).
  all: unfold nz in *.
  all: try (intros u Hu; rewrite !testbit_add_pow2 by lia;
            bits_case u t; [rewrite ?HPt, ?HNt by lia; reflexivity | apply Hex; lia]).
  all: try (intros _; reflexivity).
  all: try (intros u Hu; rewrite !testbit_add_pow2 by lia;
            destruct (Z.eqb_spec u t) as [->|Hne1];
            [ intros _; replace (t + 1 =? t) with false by (symmetry; apply Z.eqb_neq; lia);
              rewrite HPt, HNt by lia; reflexivity
            | destruct (Z.eqb_spec (u + 1) t) as [He|Hne2];
              [ cbn [orb]; intros Hu1; exfalso;
                replace u with (t - 1) in Hu1 by lia;
                specialize (Hlink Hu1); congruence
              | cbn [orb]; apply Hadj; lia ] ]).
Qed.

(** ** The loops of [NAF] maintain the invariant *)

Lemma add_shl_value (s : list byte) (L i : nat) (j : Z) :
  length s = S L -> (i < L)%nat -> 0 <= j < 8 ->
  be_value s < 2 ^ (8 * (Z.of_nat L - 1 - Z.of_nat i) + j) ->
  exists s', add_shl s (i + 1) j = Some s' /\ length s' = S L /\
    be_value s' = be_value s + 2 ^ (8 * (Z.of_nat L - 1 - Z.of_nat i) + j).
Proof.
  intros Hlen Hi Hj Hlt. unfold add_shl.
  destruct (lookup_lt_is_Some_2 s (i + 1)) as [old Hold]; [lia|].
  rewrite Hold. cbn. eexists; split; [reflexivity|].
  split; [rewrite length_insert; exact Hlen|].
  rewrite (be_value_insert _ _ _ _ Hold), byte.unsigned_of_Z, Hlen.
  set (e := 8 * (Z.of_nat L - 1 - Z.of_nat i)) in *.
  replace (8 * (Z.of_nat (S L) - 1 - Z.of_nat (i + 1))) with e by lia.
  assert (He : 0 <= e) by lia.
  assert (Hold' : 0 <= byte.unsigned old < 2 ^ j).
  { rewrite (be_value_lookup _ _ _ Hold), Hlen.
    replace (8 * (Z.of_nat (S L) - 1 - Z.of_nat (i + 1))) with e by lia.
    pose proof (be_value_nonneg s) as Hge.
    assert (H2e : 0 < 2 ^ e) by (apply Z.pow_pos_nonneg; lia).
    assert (Hq : 0 <= be_value s / 2 ^ e < 2 ^ j).
    { split; [apply Z.div_pos; lia|].
      apply Z.div_lt_upper_bound; [lia|]. rewrite <- Z.pow_add_r by lia. exact Hlt. }
    assert (2 ^ j <= 2 ^ 7) by (apply Z.pow_le_mono_r; lia).
    rewrite Z.mod_small; [exact Hq|]. change (2 ^ 7) with 128 in *. lia. }
  rewrite Z.shiftl_1_l. unfold byte.wrap.
  assert (Hj1 : 2 ^ (j + 1) <= 2 ^ 8) by (apply Z.pow_le_mono_r; lia).
  assert (Hj2 : 2 ^ (j + 1) = 2 * 2 ^ j).
  { rewrite Z.pow_add_r by lia. change (2 ^ 1) with 2. lia. }
  rewrite Z.mod_small by lia.
  rewrite Z.pow_add_r by lia. ring.
Qed.

Lemma naf_next_bit (k : list byte) (i : nat) (j : Z) (b cur : byte) :
  k !! i = Some b -> 0 <= j < 8 ->
  byte.unsigned cur = Z.shiftr (byte.unsigned b) j ->
  naf_next k i j cur
  = Some (Z.testbit (be_value k)
            (8 * (Z.of_nat (length k) - 1 - Z.of_nat i) + j + 1)).
Proof.
  intros Hb Hj Hcur. pose proof (lookup_lt_Some _ _ _ Hb) as Hi.
  unfold naf_next. destruct (Z.eqb_spec j 7) as [->|Hj7].
  - destruct (Nat.eqb_spec i 0) as [->|Hi0].
    + f_equal. symmetry. apply (testbit_above _ (8 * Z.of_nat (length k))).
      * split; [apply be_value_nonneg | apply be_value_lt].
      * lia.
    + destruct (lookup_lt_is_Some_2 k (i - 1)) as [prev Hprev]; [lia|].
      rewrite Hprev. cbn. f_equal. rewrite land_1_eqb.
      rewrite (byte_bit_of_value _ _ _ 0 Hprev) by lia. f_equal. lia.
  - f_equal. rewrite land_2_eqb, Hcur, Z.shiftr_spec by lia.
    rewrite (byte_bit_of_value _ _ _ (1 + j) Hb) by lia. f_equal. lia.
Qed.

Lemma naf_cur_bit (k : list byte) (i : nat) (j : Z) (b cur : byte) :
  k !! i = Some b -> 0 <= j < 8 ->
  byte.unsigned cur = Z.shiftr (byte.unsigned b) j ->
  (Z.land (byte.unsigned cur) 1 =? 1)
  = Z.testbit (be_value k) (8 * (Z.of_nat (length k) - 1 - Z.of_nat i) + j).
Proof.
  intros Hb Hj Hcur.
  rewrite land_1_eqb, Hcur, Z.shiftr_spec by lia.
  rewrite (byte_bit_of_value _ _ _ (0 + j) Hb) by lia. f_equal; lia.
Qed.

Lemma naf_step_ok (k : list byte) (i : nat) (j : Z) (b cur : byte)
    (st : naf_state) :
  k !! i = Some b -> 0 <= j < 8 ->
  byte.unsigned cur = Z.shiftr (byte.unsigned b) j ->
  naf_ok k (8 * (Z.of_nat (length k) - 1 - Z.of_nat i) + j) st ->
  exists st', naf_step k i j cur st = Some st' /\
    naf_ok k (8 * (Z.of_nat (length k) - 1 - Z.of_nat i) + j + 1) st'.
Proof.
  intros Hb Hj Hcur (HlP & HlN & Hinv).
  pose proof (lookup_lt_Some _ _ _ Hb) as Hi.
  set (t := 8 * (Z.of_nat (length k) - 1 - Z.of_nat i) + j) in *.
  assert (Ht : 0 <= t) by lia.
  pose proof (naf_abs_inv _ _ _ _ _ Ht Hinv) as Hnext.
  destruct (add_shl_value (retPos st) (length k) i j HlP Hi Hj) as (p' & EP & LP & VP);
    [apply (inv_pos _ _ _ _ _ Hinv)|].
  destruct (add_shl_value (retNeg st) (length k) i j HlN Hi Hj) as (n' & EN & LN & VN);
    [apply (inv_neg _ _ _ _ _ Hinv)|].
  fold t in VP, VN.
  unfold naf_step. rewrite (naf_next_bit _ _ _ _ _ Hb Hj Hcur). cbn [mbind option_bind].
  rewrite (naf_cur_bit _ _ _ _ _ Hb Hj Hcur). fold t.
  unfold naf_abs in Hnext. rewrite EP, EN. cbn [mbind option_bind].
  destruct (carry st) eqn:Ec, (Z.testbit (be_value k) t),
           (Z.testbit (be_value k) (t + 1));
    eexists; (split; [reflexivity|]); unfold naf_ok; cbn [carry retPos retNeg];
    rewrite ?Ec, ?VP, ?VN; auto.
Qed.

Lemma shiftr_byte (cur : byte) :
  byte.unsigned (byte.of_Z (Z.shiftr (byte.unsigned cur) 1))
  = Z.shiftr (byte.unsigned cur) 1.
Proof.
  rewrite byte.unsigned_of_Z. unfold byte.wrap.
  pose proof (byte.unsigned_range cur) as Hr.
  rewrite Z.shiftr_div_pow2 by lia. change (2 ^ 1) with 2.
  apply Z.mod_small. split; [apply Z.div_pos; lia|].
  apply Z.div_lt_upper_bound; lia.
Qed.

Lemma naf_byte_ok (k : list byte) (i : nat) (b : byte) (n : nat) :
  k !! i = Some b ->
  forall (j : Z) (cur : byte) (st : naf_state),
  Z.of_nat n + j = 8 -> 0 <= j ->
  byte.unsigned cur = Z.shiftr (byte.unsigned b) j ->
  naf_ok k (8 * (Z.of_nat (length k) - 1 - Z.of_nat i) + j) st ->
  exists st', naf_byte n k i j cur st = Some st' /\
    naf_ok k (8 * (Z.of_nat (length k) - 1 - Z.of_nat i) + 8) st'.
Proof.
  intros Hb. induction n as [|n IH]; intros j cur st Hn Hj Hcur Hok.
  - replace j with 8 in Hok by lia. exists st. split; [reflexivity | exact Hok].
  - cbn [naf_byte].
    destruct (naf_step_ok k i j b cur st Hb ltac:(lia) Hcur Hok) as (st1 & E1 & Hok1).
    rewrite E1. cbn [mbind option_bind].
    apply IH; [lia | lia | | ].
    + rewrite shiftr_byte, Hcur, Z.shiftr_shiftr by lia. reflexivity.
    + replace (8 * (Z.of_nat (length k) - 1 - Z.of_nat i) + (j + 1))
        with (8 * (Z.of_nat (length k) - 1 - Z.of_nat i) + j + 1) by lia.
      exact Hok1.
Qed.

Lemma naf_loop_ok (k : list byte) (n : nat) :
  (n <= length k)%nat ->
  forall st, naf_ok k (8 * (Z.of_nat (length k) - Z.of_nat n)) st ->
  exists st', naf_loop n k st = Some st' /\
    naf_ok k (8 * Z.of_nat (length k)) st'.
Proof.
  induction n as [|i IH]; intros Hn st Hok.
  - exists st. split; [reflexivity|].
    replace (8 * Z.of_nat (length k)) with (8 * (Z.of_nat (length k) - Z.of_nat 0)) by lia.
    exact Hok.
  - cbn [naf_loop].
    destruct (lookup_lt_is_Some_2 k i) as [b Hb]; [lia|].
    rewrite Hb. cbn [mbind option_bind].
    destruct (naf_byte_ok k i b 8 Hb 0 b st) as (st1 & E1 & Hok1); [lia | lia | | | ].
    + rewrite Z.shiftr_0_r. reflexivity.
    + replace (8 * (Z.of_nat (length k) - 1 - Z.of_nat i) + 0)
        with (8 * (Z.of_nat (length k) - Z.of_nat (S i))) by lia.
      exact Hok.
    + rewrite E1. cbn [mbind option_bind]. apply IH; [lia|].
      replace (8 * (Z.of_nat (length k) - Z.of_nat i))
        with (8 * (Z.of_nat (length k) - 1 - Z.of_nat i) + 8) by lia.
      exact Hok1.
Qed.

(** What [NAF] returns, in terms of the values of the two masks. *)
Lemma NAF_masks (k : list byte) :
  exists pos neg, NAF k = Some (pos, neg) /\
    length pos = length neg /\
    be_value pos - be_value neg = be_value k /\
    (forall u, 0 <= u ->
       Z.testbit (be_value pos) u && Z.testbit (be_value neg) u = false) /\
    (forall u, 0 <= u -> nz (be_value pos) (be_value neg) u = true ->
       nz (be_value pos) (be_value neg) (u + 1) = false).
Proof.
  unfold NAF.
  destruct (naf_loop_ok k (length k) (le_n _)
             (NafState false (replicate (length k + 1) Byte.x00)
                             (replicate (length k + 1) Byte.x00)))
    as (st & E & HlP & HlN & Hinv).
  { unfold naf_ok. cbn [carry retPos retNeg].
    rewrite !length_replicate, !be_value_replicate_zero.
    replace (8 * (Z.of_nat (length k) - Z.of_nat (length k))) with 0 by lia.
    split; [lia|]. split; [lia|]. apply naf_inv_init. }
  rewrite E. cbn [mbind option_bind].
  set (L := Z.of_nat (length k)) in *.
  destruct Hinv as [Hval HP HN Hex Hadj Hlink].
  pose proof (be_value_nonneg k) as HK0. pose proof (be_value_lt k) as HK1.
  fold L in HK1. rewrite (Z.mod_small (be_value k)) in Hval by lia.
  destruct (carry st) eqn:Ec; cbn [Z.b2z] in Hval.
  - destruct (lookup_lt_is_Some_2 (retPos st) 0) as [old Hold]; [lia|].
    rewrite Hold. cbn [mbind option_bind].
    eexists _, _. split; [reflexivity|].
    assert (Hv : be_value (<[0%nat:=Byte.x01]> (retPos st))
                 = be_value (retPos st) + 2 ^ (8 * L)).
    { rewrite (be_value_insert _ _ _ _ Hold), HlP.
      replace (8 * (Z.of_nat (S (length k)) - 1 - Z.of_nat 0)) with (8 * L) by lia.
      assert (Ho : byte.unsigned old = 0).
      { rewrite (be_value_lookup _ _ _ Hold), HlP.
        replace (8 * (Z.of_nat (S (length k)) - 1 - Z.of_nat 0)) with (8 * L) by lia.
        rewrite Z.div_small by lia. reflexivity. }
      rewrite Ho. change (byte.unsigned Byte.x01) with 1. ring. }
    rewrite Hv. split; [rewrite length_insert; lia|].
    split; [lia|]. split.
    + intros u Hu. rewrite testbit_add_pow2 by lia.
      destruct (Z.eqb_spec u (8 * L)) as [->|Hne]; cbn [orb].
      * rewrite (testbit_above _ (8 * L) (8 * L)) by lia. reflexivity.
      * apply Hex; lia.
    + intros u Hu. unfold nz in *. rewrite !testbit_add_pow2 by lia.
      destruct (Z.eqb_spec u (8 * L)) as [->|Hne]; cbn [orb].
      * intros _. replace (8 * L + 1 =? 8 * L) with false by (symmetry; apply Z.eqb_neq; lia).
        rewrite !(testbit_above _ (8 * L) (8 * L + 1)) by lia. reflexivity.
      * destruct (Z.eqb_spec (u + 1) (8 * L)) as [He|Hne2]; cbn [orb].
        -- intros Hnz. exfalso. replace u with (8 * L - 1) in Hnz by lia.
           specialize (Hlink Hnz).
           rewrite (testbit_above _ (8 * L) (8 * L)) in Hlink by lia. discriminate.
        -- apply Hadj; lia.
  - eexists _, _. split; [reflexivity|].
    rewrite !be_value_drop1.
    + split; [rewrite !length_drop; lia|]. split; [lia|]. split; assumption.
    + rewrite HlN. replace (8 * (Z.of_nat (S (length k)) - 1)) with (8 * L) by lia. lia.
    + rewrite HlP. replace (8 * (Z.of_nat (S (length k)) - 1)) with (8 * L) by lia. lia.
Qed.

(** C2: [NAF] returns, and the sum of 2^i over the 1-bits of retPos minus
    the sum of 2^i over the 1-bits of retNeg is the integer k. *)
Theorem NAF_value (k : list byte) :
  exists retPos retNeg, NAF k = Some (retPos, retNeg) /\
    bit_sum retPos - bit_sum retNeg = be_value k.
Proof.
  destruct (NAF_masks k) as (pos & neg & E & _ & Hv & _).
  exists pos, neg. split; [exact E|]. rewrite !bit_sum_value. exact Hv.
Qed.

(** C3: the two masks [NAF] returns never have a 1-bit at the same
    position, and no two adjacent positions both carry a non-zero digit. *)
Theorem NAF_non_adjacent (k : list byte) :
  exists retPos retNeg, NAF k = Some (retPos, retNeg) /\
    (forall i : nat, bit_at retPos i && bit_at retNeg i = false) /\
    (forall i : nat, digit_nonzero retPos retNeg i = true ->
                     digit_nonzero retPos retNeg (S i) = false).
Proof.
  destruct (NAF_masks k) as (pos & neg & E & _ & _ & Hex & Hadj).
  exists pos, neg. split; [exact E|]. split.
  - intros i. rewrite !bit_at_testbit. apply Hex. lia.
  - intros i. unfold digit_nonzero. rewrite !bit_at_testbit.
    replace (Z.of_nat (S i)) with (Z.of_nat i + 1) by lia.
    apply Hadj. lia.
Qed.

(** ** Stores *)

Lemma load_write_eq (s : store) (p : ptr) (v : Z) : load (write s p v) p = v.
Proof. unfold load, write. cbn. rewrite Nat.eqb_refl. reflexivity. Qed.

Lemma load_write_ne (s : store) (p q : ptr) (v : Z) :
  q <> p -> load (write s p v) q = load s q.
Proof.
  intros H. unfold load, write. cbn.
  destruct (Nat.eqb_spec q p); [contradiction | reflexivity].
Qed.

Lemma load_alloc_old (s : store) (q : ptr) :
  (q < next s)%nat -> load (alloc s) q = load s q.
Proof.
  intros H. unfold load, alloc. cbn.
  destruct (Nat.eqb_spec q (next s)); [lia | reflexivity].
Qed.

Lemma load_alloc_new (s : store) : load (alloc s) (next s) = 0.
Proof. unfold load, alloc. cbn. rewrite Nat.eqb_refl. reflexivity. Qed.

Lemma fld_fwrite_eq m p v : fld (fwrite m p v) p = v.
Proof. apply load_write_eq. Qed.
Lemma fld_fwrite_ne m p q v : q <> p -> fld (fwrite m p v) q = fld m q.
Proof. apply load_write_ne. Qed.
Lemma fld_falloc_old m q : (q < fnext m)%nat -> fld (falloc m) q = fld m q.
Proof. apply load_alloc_old. Qed.
Lemma fld_falloc_new m : fld (falloc m) (fnext m) = 0.
Proof. apply load_alloc_new. Qed.
Lemma fnext_fwrite m p v : fnext (fwrite m p v) = fnext m.
Proof. reflexivity. Qed.
Lemma fnext_falloc m : fnext (falloc m) = S (fnext m).
Proof. reflexivity. Qed.
Lemma fld_bwrite m p v q : fld (bwrite m p v) q = fld m q.
Proof. reflexivity. Qed.
Lemma fld_balloc m q : fld (balloc m) q = fld m q.
Proof. reflexivity. Qed.
Lemma fnext_bwrite m p v : fnext (bwrite m p v) = fnext m.
Proof. reflexivity. Qed.
Lemma fnext_balloc m : fnext (balloc m) = fnext m.
Proof. reflexivity. Qed.

Lemma big_bwrite_eq m p v : big (bwrite m p v) p = v.
Proof. apply load_write_eq. Qed.
Lemma big_bwrite_ne m p q v : q <> p -> big (bwrite m p v) q = big m q.
Proof. apply load_write_ne. Qed.
Lemma big_balloc_old m q : (q < bnext m)%nat -> big (balloc m) q = big m q.
Proof. apply load_alloc_old. Qed.
Lemma big_balloc_new m : big (balloc m) (bnext m) = 0.
Proof. apply load_alloc_new. Qed.
Lemma bnext_bwrite m p v : bnext (bwrite m p v) = bnext m.
Proof. reflexivity. Qed.
Lemma bnext_balloc m : bnext (balloc m) = S (bnext m).
Proof. reflexivity. Qed.
Lemma big_fwrite m p v q : big (fwrite m p v) q = big m q.
Proof. reflexivity. Qed.
Lemma big_falloc m q : big (falloc m) q = big m q.
Proof. reflexivity. Qed.
Lemma bnext_fwrite m p v : bnext (fwrite m p v) = bnext m.
Proof. reflexivity. Qed.
Lemma bnext_falloc m : bnext (falloc m) = bnext m.
Proof. reflexivity. Qed.

(** ** Running the primitives and the field methods *)

Lemma bind_run {A B : Type} (c : M A) (k : A -> M B) (m m' : mem) (a : A) :
  c m = Some (a, m') -> (c ≫= k) m = k a m'.
Proof. intros H. unfold mbind, M_bind. rewrite H. reflexivity. Qed.

Lemma ret_run {A : Type} (a : A) (m : mem) : (mret a : M A) m = Some (a, m).
Proof. reflexivity. Qed.

Lemma fnew_run m : fnew m = Some (fnext m, falloc m).
Proof. reflexivity. Qed.
Lemma fget_run p m : fget p m = Some (fld m p, m).
Proof. reflexivity. Qed.
Lemma fput_run p v m : fput p v m = Some (tt, fwrite m p v).
Proof. reflexivity. Qed.
Lemma bnew_run m : bnew m = Some (bnext m, balloc m).
Proof. reflexivity. Qed.
Lemma bget_run p m : bget p m = Some (big m p, m).
Proof. reflexivity. Qed.
Lemma bput_run p v m : bput p v m = Some (tt, bwrite m p v).
Proof. reflexivity. Qed.

Lemma Set_run f g m : fieldVal.Set_ f g m = Some (tt, fwrite m f (fld m g)).
Proof. reflexivity. Qed.
Lemma SetInt_run f ui m : fieldVal.SetInt f ui m = Some (tt, fwrite m f ui).
Proof. reflexivity. Qed.
Lemma SetByteSlice_run f b m :
  fieldVal.SetByteSlice f b m = Some (tt, fwrite m f (be_value b)).
Proof. reflexivity. Qed.
Lemma Normalize_run f m :
  fieldVal.Normalize f m = Some (tt, fwrite m f (fnormalize (fld m f))).
Proof. reflexivity. Qed.
Lemma Negate_run f mag m :
  fieldVal.Negate f mag m = Some (tt, fwrite m f (fnegate (fld m f) mag)).
Proof. reflexivity. Qed.
Lemma NegateVal_run f v mag m :
  fieldVal.NegateVal f v mag m = Some (tt, fwrite m f (fnegate (fld m v) mag)).
Proof. reflexivity. Qed.
Lemma Add_run f g m :
  fieldVal.Add f g m = Some (tt, fwrite m f (fld m f + fld m g)).
Proof. reflexivity. Qed.
Lemma Add2_run f a b m :
  fieldVal.Add2 f a b m = Some (tt, fwrite m f (fld m a + fld m b)).
Proof. reflexivity. Qed.
Lemma AddInt_run f ui m :
  fieldVal.AddInt f ui m = Some (tt, fwrite m f (fld m f + ui)).
Proof. reflexivity. Qed.
Lemma Mul_run f g m :
  fieldVal.Mul f g m = Some (tt, fwrite m f (fmul (fld m f) (fld m g))).
Proof. reflexivity. Qed.
Lemma Mul2_run f a b m :
  fieldVal.Mul2 f a b m = Some (tt, fwrite m f (fmul (fld m a) (fld m b))).
Proof. reflexivity. Qed.
Lemma SquareVal_run f a m :
  fieldVal.SquareVal f a m = Some (tt, fwrite m f (fmul (fld m a) (fld m a))).
Proof. reflexivity. Qed.
Lemma Inverse_run f m :
  fieldVal.Inverse f m = Some (tt, fwrite m f (finverse (fld m f))).
Proof. reflexivity. Qed.
Lemma Equals_run f g m :
  fieldVal.Equals f g m = Some (fld m f =? fld m g, m).
Proof. reflexivity. Qed.
Lemma Bytes_run f m : fieldVal.Bytes f m = Some (be_bytes 32 (fld m f), m).
Proof. reflexivity. Qed.
Lemma Sign_run x m : bigInt.Sign x m = Some (Z.sgn (big m x), m).
Proof. reflexivity. Qed.
Lemma bigBytes_run x m : bigInt.Bytes x m = Some (big_Bytes (big m x), m).
Proof. reflexivity. Qed.
Lemma SetBytes_run x b m :
  bigInt.SetBytes x b m = Some (tt, bwrite m x (be_value b)).
Proof. reflexivity. Qed.

#[global] Opaque fwrite fld falloc fnext bwrite big balloc bnext.

Ltac run_of c m :=
  lazymatch c with
  | fnew => constr:(fnew_run m)
  | fget ?p => constr:(fget_run p m)
  | fput ?p ?v => constr:(fput_run p v m)
  | bnew => constr:(bnew_run m)
  | bget ?p => constr:(bget_run p m)
  | bput ?p ?v => constr:(bput_run p v m)
  | fieldVal.Set_ ?f ?g => constr:(Set_run f g m)
  | fieldVal.SetInt ?f ?u => constr:(SetInt_run f u m)
  | fieldVal.SetByteSlice ?f ?b => constr:(SetByteSlice_run f b m)
  | fieldVal.Normalize ?f => constr:(Normalize_run f m)
  | fieldVal.Negate ?f ?g => constr:(Negate_run f g m)
  | fieldVal.NegateVal ?f ?v ?g => constr:(NegateVal_run f v g m)
  | fieldVal.Add ?f ?g => constr:(Add_run f g m)
  | fieldVal.Add2 ?f ?a ?b => constr:(Add2_run f a b m)
  | fieldVal.AddInt ?f ?u => constr:(AddInt_run f u m)
  | fieldVal.Mul ?f ?g => constr:(Mul_run f g m)
  | fieldVal.Mul2 ?f ?a ?b => constr:(Mul2_run f a b m)
  | fieldVal.SquareVal ?f ?a => constr:(SquareVal_run f a m)
  | fieldVal.Inverse ?f => constr:(Inverse_run f m)
  | fieldVal.Equals ?f ?g => constr:(Equals_run f g m)
  | fieldVal.Bytes ?f => constr:(Bytes_run f m)
  | bigInt.Sign ?x => constr:(Sign_run x m)
  | bigInt.Bytes ?x => constr:(bigBytes_run x m)
  | bigInt.SetBytes ?x ?b => constr:(SetBytes_run x b m)
  end.

Ltac next_simpl :=
  repeat first
    [ rewrite fnext_fwrite | rewrite fnext_falloc
    | rewrite fnext_bwrite | rewrite fnext_balloc
    | rewrite bnext_bwrite | rewrite bnext_balloc
    | rewrite bnext_fwrite | rewrite bnext_falloc ].

Ltac ptr_side := next_simpl; solve [assumption | lia | congruence].

Ltac fsimpl :=
  next_simpl;
  repeat first
    [ rewrite fld_fwrite_eq
    | rewrite fld_fwrite_ne by ptr_side
    | rewrite fld_falloc_old by ptr_side
    | rewrite fld_falloc_new
    | rewrite fld_bwrite
    | rewrite fld_balloc
    | rewrite big_bwrite_eq
    | rewrite big_bwrite_ne by ptr_side
    | rewrite big_balloc_old by ptr_side
    | rewrite big_balloc_new
    | rewrite big_fwrite
    | rewrite big_falloc ].

(** One statement, leaving the memory as the statement wrote it. *)
Ltac mstep0 :=
  lazymatch goal with
  | |- context [ @mbind M _ ?A ?B ?k ?c ?m ] =>
      let pf := run_of c m in
      rewrite (bind_run c k m _ _ pf); cbv beta
  end.

(** One statement of a straight-line body. *)
Ltac mstep :=
  lazymatch goal with
  | |- context [ @mbind M _ ?A ?B ?k ?c ?m ] =>
      let pf := run_of c m in
      rewrite (bind_run c k m _ _ pf); cbv beta; fsimpl
  end.

(** The last statement. *)
Ltac mlast :=
  lazymatch goal with
  | |- context [ ?c ?m = Some _ ] =>
      let pf := run_of c m in rewrite pf
  end.

(** ** Congruence modulo the field prime *)

#[global] Instance feq_equiv : Equivalence feq.
Proof.
  split; unfold feq; [intros a | intros a b H | intros a b c H1 H2]; congruence.
Qed.

#[global] Instance feq_add : Proper (feq ==> feq ==> feq) Z.add.
Proof.
  intros a a' Ha b b' Hb. unfold feq in *.
  rewrite (Zplus_mod a), (Zplus_mod a'), Ha, Hb. reflexivity.
Qed.

#[global] Instance feq_sub : Proper (feq ==> feq ==> feq) Z.sub.
Proof.
  intros a a' Ha b b' Hb. unfold feq in *.
  rewrite (Zminus_mod a), (Zminus_mod a'), Ha, Hb. reflexivity.
Qed.

#[global] Instance feq_mul : Proper (feq ==> feq ==> feq) Z.mul.
Proof.
  intros a a' Ha b b' Hb. unfold feq in *.
  rewrite (Zmult_mod a), (Zmult_mod a'), Ha, Hb. reflexivity.
Qed.

#[global] Instance feq_opp : Proper (feq ==> feq) Z.opp.
Proof.
  intros a a' Ha. rewrite <- !Z.sub_0_l. rewrite Ha. reflexivity.
Qed.

Lemma feq_fnormalize (v : Z) : feq (fnormalize v) v.
Proof. unfold feq, fnormalize. apply Z.mod_mod. discriminate. Qed.

Lemma feq_fmul (a b : Z) : feq (fmul a b) (a * b).
Proof. unfold feq, fmul. apply Z.mod_mod. discriminate. Qed.

Lemma feq_fnegate (v mag : Z) : feq (fnegate v mag) (- v).
Proof.
  unfold feq, fnegate.
  replace ((mag + 1) * fieldPrime - v) with (- v + (mag + 1) * fieldPrime) by ring.
  apply Z_mod_plus_full.
Qed.

#[global] Instance feq_fnormalize_proper : Proper (feq ==> feq) fnormalize.
Proof. intros a a' Ha. rewrite !feq_fnormalize. exact Ha. Qed.

#[global] Instance feq_fmul_proper : Proper (feq ==> feq ==> feq) fmul.
Proof. intros a a' Ha b b' Hb. rewrite !feq_fmul, Ha, Hb. reflexivity. Qed.

#[global] Instance feq_fnegate_proper : Proper (feq ==> eq ==> feq) fnegate.
Proof. intros a a' Ha g g' <-. rewrite !feq_fnegate, Ha. reflexivity. Qed.

(** Remove the reductions and the magnitude offsets from a congruence. *)
Ltac feq_clean :=
  repeat first [ rewrite feq_fnormalize | rewrite feq_fmul | rewrite feq_fnegate ].

Lemma fnormalize_feq (a b : Z) : feq a b <-> fnormalize a = fnormalize b.
Proof. reflexivity. Qed.

Lemma fnormalize_idem (v : Z) : fnormalize (fnormalize v) = fnormalize v.
Proof. apply feq_fnormalize. Qed.

(** ** The four normalizations that open [addZ1EqualsZ2] *)

Lemma fld_normalized (p q : ptr) (m : mem) :
  fld (normalized p m) q
  = if Nat.eqb q p then fnormalize (fld m q) else fld m q.
Proof.
  unfold normalized. destruct (Nat.eqb_spec q p) as [->|Hne].
  - apply fld_fwrite_eq.
  - apply fld_fwrite_ne. exact Hne.
Qed.

Lemma fld_normalized4 (x1 y1 x2 y2 q : ptr) (m : mem) :
  fld (normalized4 x1 y1 x2 y2 m) q
  = if Nat.eqb q x1 || Nat.eqb q y1 || Nat.eqb q x2 || Nat.eqb q y2
    then fnormalize (fld m q) else fld m q.
Proof.
  unfold normalized4. rewrite !fld_normalized.
  destruct (Nat.eqb q x1), (Nat.eqb q y1), (Nat.eqb q x2), (Nat.eqb q y2);
    cbn [orb]; rewrite ?fnormalize_idem; reflexivity.
Qed.

Lemma fld_normalized4_feq (x1 y1 x2 y2 q : ptr) (m : mem) :
  feq (fld (normalized4 x1 y1 x2 y2 m) q) (fld m q).
Proof.
  rewrite fld_normalized4. destruct (_ || _); [apply feq_fnormalize | reflexivity].
Qed.

Lemma fld_normalized4_x1 x1 y1 x2 y2 m :
  fld (normalized4 x1 y1 x2 y2 m) x1 = fnormalize (fld m x1).
Proof. rewrite fld_normalized4, Nat.eqb_refl. reflexivity. Qed.
Lemma fld_normalized4_y1 x1 y1 x2 y2 m :
  fld (normalized4 x1 y1 x2 y2 m) y1 = fnormalize (fld m y1).
Proof. rewrite fld_normalized4, Nat.eqb_refl, orb_true_r. reflexivity. Qed.
Lemma fld_normalized4_x2 x1 y1 x2 y2 m :
  fld (normalized4 x1 y1 x2 y2 m) x2 = fnormalize (fld m x2).
Proof. rewrite fld_normalized4, Nat.eqb_refl, !orb_true_r. reflexivity. Qed.
Lemma fld_normalized4_y2 x1 y1 x2 y2 m :
  fld (normalized4 x1 y1 x2 y2 m) y2 = fnormalize (fld m y2).
Proof. rewrite fld_normalized4, Nat.eqb_refl, !orb_true_r. reflexivity. Qed.

Lemma fnext_normalized4 x1 y1 x2 y2 m :
  fnext (normalized4 x1 y1 x2 y2 m) = fnext m.
Proof. unfold normalized4, normalized. rewrite !fnext_fwrite. reflexivity. Qed.

(** [addZ1EqualsZ2] up to its first test. *)
Ltac addZ_normalize x1 y1 x2 y2 m :=
  unfold addZ1EqualsZ2; do 4 mstep0;
  lazymatch goal with
  | |- context [ @mbind M _ _ _ _ _ ?mm ] =>
      change mm with (normalized4 x1 y1 x2 y2 m)
  end;
  mstep0;
  rewrite (fld_normalized4_x1 x1 y1 x2 y2 m), (fld_normalized4_x2 x1 y1 x2 y2 m).

(** C6: when the normalized X of the two points are equal, [addZ1EqualsZ2]
    dispatches to [doubleJacobian] (on the memory in which the four input
    coordinates are normalized) if the normalized Y are equal as well, and
    otherwise writes the point at infinity X3 = Y3 = Z3 = 0. *)
Theorem addZ1EqualsZ2_same_x (x1 y1 z1 x2 y2 x3 y3 z3 : ptr) (m : mem) :
  fnormalize (fld m x1) = fnormalize (fld m x2) ->
  (fnormalize (fld m y1) = fnormalize (fld m y2) ->
   addZ1EqualsZ2 x1 y1 z1 x2 y2 x3 y3 z3 m
   = doubleJacobian x1 y1 z1 x3 y3 z3 (normalized4 x1 y1 x2 y2 m)) /\
  (fnormalize (fld m y1) <> fnormalize (fld m y2) ->
   exists m', addZ1EqualsZ2 x1 y1 z1 x2 y2 x3 y3 z3 m = Some (tt, m') /\
     fld m' x3 = 0 /\ fld m' y3 = 0 /\ fld m' z3 = 0).
Proof.
  intros Hx. split; intros Hy.
  - addZ_normalize x1 y1 x2 y2 m.
    rewrite Hx, Z.eqb_refl. mstep.
    rewrite (fld_normalized4_y1 x1 y1 x2 y2 m), (fld_normalized4_y2 x1 y1 x2 y2 m).
    rewrite Hy, Z.eqb_refl. reflexivity.
  - addZ_normalize x1 y1 x2 y2 m.
    rewrite Hx, Z.eqb_refl. mstep.
    rewrite (fld_normalized4_y1 x1 y1 x2 y2 m), (fld_normalized4_y2 x1 y1 x2 y2 m).
    destruct (Z.eqb_spec (fnormalize (fld m y1)) (fnormalize (fld m y2))) as [E|_];
      [contradiction|].
    do 2 mstep. mlast. eexists. split; [reflexivity|].
    destruct (Nat.eq_dec x3 z3) as [Hxz|Hxz];
      destruct (Nat.eq_dec y3 z3) as [Hyz|Hyz];
      destruct (Nat.eq_dec x3 y3) as [Hxy|Hxy];
      subst; try congruence; fsimpl; auto.
Qed.

(** C5: for two Jacobian points that share Z and whose normalized X differ,
    [addZ1EqualsZ2] ends with X3 = D - E - F, Y3 = C (E - X3) - Y1 (F - E)
    and Z3 = Z A modulo P, where A = X2 - X1, B = A^2, C = Y2 - Y1,
    D = C^2, E = X1 B and F = X2 B.  The output cells must be three distinct
    cells, x3 must not be the cell of y1 or z1, and y3 not the cell of z1
    (they may be the cells of x1, y1, z1 respectively, as in an in-place
    addition). *)
Theorem addZ1EqualsZ2_formula (x1 y1 z1 x2 y2 x3 y3 z3 : ptr) (m : mem) :
  (x1 < fnext m)%nat -> (y1 < fnext m)%nat -> (z1 < fnext m)%nat ->
  (x2 < fnext m)%nat -> (y2 < fnext m)%nat ->
  (x3 < fnext m)%nat -> (y3 < fnext m)%nat -> (z3 < fnext m)%nat ->
  x3 <> y3 -> x3 <> z3 -> y3 <> z3 ->
  x3 <> y1 -> x3 <> z1 -> y3 <> z1 ->
  fnormalize (fld m x1) <> fnormalize (fld m x2) ->
  let X1 := fld m x1 in let Y1 := fld m y1 in let Z := fld m z1 in
  let X2 := fld m x2 in let Y2 := fld m y2 in
  let A := X2 - X1 in
  let B := A * A in
  let C := Y2 - Y1 in
  let D := C * C in
  let E := X1 * B in
  let F := X2 * B in
  let X3 := D - E - F in
  let Y3 := C * (E - X3) - Y1 * (F - E) in
  let Z3 := Z * A in
  exists m', addZ1EqualsZ2 x1 y1 z1 x2 y2 x3 y3 z3 m = Some (tt, m') /\
    feq (fld m' x3) X3 /\ feq (fld m' y3) Y3 /\ feq (fld m' z3) Z3.
Proof.
  intros Hx1 Hy1 Hz1 Hx2 Hy2 Hx3 Hy3 Hz3 Nxy Nxz Nyz Nxy1 Nxz1 Nyz1 Hne.
  intros X1 Y1 Z X2 Y2 A B C D E F X3 Y3 Z3.
  addZ_normalize x1 y1 x2 y2 m.
  destruct (Z.eqb_spec (fnormalize (fld m x1)) (fnormalize (fld m x2))) as [E'|_];
    [contradiction|].
  pose proof (fld_normalized4_x1 x1 y1 x2 y2 m) as E1.
  pose proof (fld_normalized4_y1 x1 y1 x2 y2 m) as E2.
  pose proof (fld_normalized4_x2 x1 y1 x2 y2 m) as E3.
  pose proof (fld_normalized4_y2 x1 y1 x2 y2 m) as E4.
  pose proof (fld_normalized4_feq x1 y1 x2 y2 z1 m) as E5.
  pose proof (fnext_normalized4 x1 y1 x2 y2 m) as En.
  generalize dependent (normalized4 x1 y1 x2 y2 m). intros m4 E1 E2 E3 E4 E5 En.
  rewrite <- En in Hx1, Hy1, Hz1, Hx2, Hy2, Hx3, Hy3, Hz3.
  repeat mstep.
  mlast. eexists. split; [reflexivity|].
  fsimpl. rewrite E1, E2, E3, E4.
  repeat split.
  - feq_clean. unfold feq. f_equal. subst X3 D C E F B A X1 X2 Y1 Y2. ring.
  - feq_clean. unfold feq. f_equal. subst Y3 X3 D C E F B A X1 X2 Y1 Y2. ring.
  - feq_clean. rewrite E5. unfold feq. f_equal. subst Z3 A Z X1 X2. ring.
Qed.

(** ** Byte encodings of integers *)

Lemma length_be_bytes (n : nat) (z : Z) : length (be_bytes n z) = n.
Proof.
  revert z. induction n as [|n IH]; intros z; [reflexivity|].
  cbn [be_bytes]. rewrite length_app, IH. cbn. lia.
Qed.

Lemma be_value_be_bytes (n : nat) (z : Z) :
  be_value (be_bytes n z) = z mod 2 ^ (8 * Z.of_nat n).
Proof.
  revert z. induction n as [|n IH]; intros z.
  - cbn. rewrite Z.mod_1_r. reflexivity.
  - cbn [be_bytes]. rewrite be_value_snoc, IH, byte.unsigned_of_Z.
    unfold byte.wrap. change (2 ^ 8) with 256.
    replace (8 * Z.of_nat (S n)) with (8 + 8 * Z.of_nat n) by lia.
    rewrite Z.pow_add_r by lia. change (2 ^ 8) with 256.
    assert (0 < 2 ^ (8 * Z.of_nat n)) by (apply Z.pow_pos_nonneg; lia).
    rewrite Z.rem_mul_r by lia. lia.
Qed.

Lemma byte_len_bound (z : Z) : 0 <= z -> z < 2 ^ (8 * Z.of_nat (byte_len z)).
Proof.
  intros Hz. unfold byte_len. destruct (Z.leb_spec z 0) as [H0|Hpos].
  - assert (z = 0) by lia. subst. reflexivity.
  - pose proof (Z.log2_nonneg z) as Hl.
    pose proof (Z.log2_spec z Hpos) as [_ Hup].
    assert (Hq : 0 <= Z.log2 z / 8) by (apply Z.div_pos; lia).
    rewrite Z2Nat.id by lia.
    eapply Z.lt_le_trans; [exact Hup|].
    apply Z.pow_le_mono_r; [lia|].
    pose proof (Z.mod_pos_bound (Z.log2 z) 8 ltac:(lia)).
    pose proof (Z.div_mod (Z.log2 z) 8 ltac:(lia)). lia.
Qed.

Lemma byte_len_le (z : Z) (n : nat) :
  0 <= z < 2 ^ (8 * Z.of_nat n) -> (byte_len z <= n)%nat.
Proof.
  intros [Hz Hlt]. unfold byte_len. destruct (Z.leb_spec z 0) as [H0|Hpos]; [lia|].
  apply Z.log2_lt_pow2 in Hlt; [|exact Hpos].
  pose proof (Z.log2_nonneg z) as Hl.
  assert (Z.log2 z / 8 < Z.of_nat n) by (apply Z.div_lt_upper_bound; lia).
  assert (0 <= Z.log2 z / 8) by (apply Z.div_pos; lia).
  lia.
Qed.

Lemma be_value_big_Bytes (z : Z) : be_value (big_Bytes z) = Z.abs z.
Proof.
  unfold big_Bytes. rewrite be_value_be_bytes.
  apply Z.mod_small. split; [lia|]. apply byte_len_bound. lia.
Qed.

Lemma length_big_Bytes (z : Z) : length (big_Bytes z) = byte_len (Z.abs z).
Proof. apply length_be_bytes. Qed.

Lemma big_Bytes_zero : big_Bytes 0 = [].
Proof. reflexivity. Qed.

Lemma curve_N_range : 0 < curve_N < 2 ^ 256.
Proof. split; reflexivity. Qed.

Lemma fieldPrime_range : 0 < fieldPrime < 2 ^ 256.
Proof. split; reflexivity. Qed.

Lemma length_moduloReduce (k : list byte) : (length (moduloReduce k) <= 32)%nat.
Proof.
  unfold moduloReduce. rewrite length_big_Bytes.
  pose proof (Z.mod_pos_bound (be_value k) curve_N ltac:(reflexivity)) as Hr.
  apply byte_len_le. rewrite Z.abs_eq by lia.
  pose proof curve_N_range. change (8 * Z.of_nat 32) with 256. lia.
Qed.

Lemma be_value_field_bytes (v : Z) :
  be_value (be_bytes 32 (fnormalize v)) = fnormalize v.
Proof.
  rewrite be_value_be_bytes. change (8 * Z.of_nat 32) with 256.
  pose proof (Z.mod_pos_bound v fieldPrime ltac:(reflexivity)) as Hr.
  pose proof fieldPrime_range. apply Z.mod_small. unfold fnormalize. lia.
Qed.

(** ** The converters, run *)

Lemma bigAffineToField_run (x y : ptr) (m : mem) :
  bigAffineToField x y m
  = Some ((fnext m, S (fnext m)),
          fwrite (fwrite (falloc (falloc m)) (fnext m) (Z.abs (big m x)))
                 (S (fnext m)) (Z.abs (big m y))).
Proof.
  unfold bigAffineToField. repeat mstep.
  rewrite !be_value_big_Bytes. reflexivity.
Qed.

Lemma fieldJacobianToBigAffine_spec (x y z : ptr) (m : mem) :
  (x < fnext m)%nat -> (y < fnext m)%nat -> (z < fnext m)%nat ->
  x <> y -> x <> z -> y <> z ->
  let zInv := finverse (fld m z) in
  let X := fnormalize (fmul (fld m x) (fmul zInv zInv)) in
  let Y := fnormalize (fmul (fld m y) (fmul (fmul zInv zInv) zInv)) in
  exists m',
    fieldJacobianToBigAffine x y z m = Some ((bnext m, S (bnext m)), m') /\
    fld m' x = X /\ fld m' y = Y /\ fld m' z = 1 /\
    big m' (bnext m) = X /\ big m' (S (bnext m)) = Y /\
    (forall p, (p < bnext m)%nat -> big m' p = big m p) /\
    (forall q, (q < fnext m)%nat -> q <> x -> q <> y -> q <> z ->
               fld m' q = fld m q).
Proof.
  intros Hx Hy Hz Nxy Nxz Nyz zInv X Y.
  unfold fieldJacobianToBigAffine. repeat mstep.
  rewrite !be_value_field_bytes, ret_run.
  rewrite ?bnext_fwrite, ?bnext_falloc, ?bnext_balloc, ?bnext_bwrite.
  eexists. split; [reflexivity|].
  assert (Nxy' : y <> x) by congruence.
  assert (Nxz' : z <> x) by congruence.
  assert (Nyz' : z <> y) by congruence.
  repeat split; intros; fsimpl; reflexivity.
Qed.

(** ** Programs that cannot panic *)

Lemma total_bind {A B : Type} (c : M A) (k : A -> M B) :
  total c -> (forall a, total (k a)) -> total (c ≫= k).
Proof.
  intros Hc Hk m. destruct (Hc m) as (a & m1 & E1).
  destruct (Hk a m1) as (b & m2 & E2).
  exists b, m2. rewrite (bind_run c k m m1 a E1). exact E2.
Qed.

Lemma total_ret {A : Type} (a : A) : total (mret a : M A).
Proof. intros m. exists a, m. reflexivity. Qed.

Lemma total_fget p : total (fget p).
Proof. intros m. eexists _, _. reflexivity. Qed.
Lemma total_fput p v : total (fput p v).
Proof. intros m. eexists _, _. reflexivity. Qed.
Lemma total_fnew : total fnew.
Proof. intros m. eexists _, _. reflexivity. Qed.

Lemma total_if {A : Type} (b : bool) (c1 c2 : M A) :
  total c1 -> total c2 -> total (if b then c1 else c2).
Proof. destruct b; auto. Qed.

Ltac total_tac :=
  repeat lazymatch goal with
  | |- total (mret _) => apply total_ret
  | |- total (fget _) => apply total_fget
  | |- total (fput _ _) => apply total_fput
  | |- total fnew => apply total_fnew
  | |- total (if _ then _ else _) => apply total_if
  | |- total (_ ≫= _) => apply total_bind; [|intros ?]
  | |- total (let _ := _ in _) => cbv zeta
  | |- total (match ?x with (_, _) => _ end) => destruct x
  end.

Lemma total_doubleJacobian x1 y1 z1 x3 y3 z3 :
  total (doubleJacobian x1 y1 z1 x3 y3 z3).
Proof. unfold doubleJacobian. total_tac. Qed.

Lemma total_addZ1EqualsZ2 x1 y1 z1 x2 y2 x3 y3 z3 :
  total (addZ1EqualsZ2 x1 y1 z1 x2 y2 x3 y3 z3).
Proof.
  unfold addZ1EqualsZ2, fieldVal.Normalize, fieldVal.Equals, fieldVal.SetInt,
    fieldVal.Set_, fieldVal.Negate, fieldVal.Add, fieldVal.Add2, fieldVal.Mul,
    fieldVal.Mul2, fieldVal.SquareVal.
  total_tac. apply total_doubleJacobian.
Qed.

Lemma total_addJacobian x1 y1 z1 x2 y2 z2 x3 y3 z3 :
  total (addJacobian x1 y1 z1 x2 y2 z2 x3 y3 z3).
Proof.
  unfold addJacobian. total_tac.
  - apply total_addZ1EqualsZ2.
  - apply total_doubleJacobian.
Qed.

Lemma total_bget p : total (bget p).
Proof. intros m. eexists _, _. reflexivity. Qed.
Lemma total_bput p v : total (bput p v).
Proof. intros m. eexists _, _. reflexivity. Qed.
Lemma total_bnew : total bnew.
Proof. intros m. eexists _, _. reflexivity. Qed.

Ltac total_tac2 :=
  unfold fieldVal.Normalize, fieldVal.Equals, fieldVal.SetInt,
    fieldVal.Set_, fieldVal.Negate, fieldVal.NegateVal, fieldVal.Add,
    fieldVal.Add2, fieldVal.AddInt, fieldVal.Mul, fieldVal.Mul2,
    fieldVal.SquareVal, fieldVal.Inverse, fieldVal.Bytes,
    fieldVal.SetByteSlice, bigInt.Sign, bigInt.Bytes, bigInt.SetBytes;
  repeat lazymatch goal with
  | |- total (mret _) => apply total_ret
  | |- total (fget _) => apply total_fget
  | |- total (fput _ _) => apply total_fput
  | |- total fnew => apply total_fnew
  | |- total (bget _) => apply total_bget
  | |- total (bput _ _) => apply total_bput
  | |- total bnew => apply total_bnew
  | |- total (if _ then _ else _) => apply total_if
  | |- total (_ ≫= _) => apply total_bind; [|intros ?]
  | |- total (let _ := _ in _) => cbv zeta
  | |- total (match ?x with (_, _) => _ end) => destruct x
  end.

Lemma total_fieldJacobianToBigAffine x y z :
  total (fieldJacobianToBigAffine x y z).
Proof. unfold fieldJacobianToBigAffine. total_tac2. Qed.

Lemma total_bigAffineToField x y : total (bigAffineToField x y).
Proof. unfold bigAffineToField. total_tac2. Qed.

(** ** ScalarBaseMult stays inside the table *)

Lemma bytePoints_at_in_range (bytePoints : Z -> Z -> Z * Z * Z) (w : Z) (b : byte) :
  0 <= w < 32 ->
  bytePoints_at bytePoints w (byte.unsigned b)
  = Some (bytePoints w (byte.unsigned b)).
Proof.
  intros Hw. unfold bytePoints_at.
  pose proof (byte.unsigned_range b) as Hb. change (2 ^ 8) with 256 in Hb.
  destruct (Z.leb_spec 0 w); [|lia]. destruct (Z.ltb_spec w 32); [|lia].
  destruct (Z.leb_spec 0 (byte.unsigned b)); [|lia].
  destruct (Z.ltb_spec (byte.unsigned b) 256); [|lia]. reflexivity.
Qed.

Lemma total_lift_Some {A : Type} (o : option A) (a : A) :
  o = Some a -> total (lift o).
Proof. intros -> m. exists a, m. reflexivity. Qed.

Lemma total_scalarBaseMult_loop bytePoints diff qx qy qz (newK : list byte) :
  forall i, 0 <= diff + i -> diff + i + Z.of_nat (length newK) <= 32 ->
  total (scalarBaseMult_loop bytePoints diff qx qy qz i newK).
Proof.
  induction newK as [|b rest IH]; intros i Hlo Hhi; cbn [scalarBaseMult_loop].
  - apply total_ret.
  - cbn [length] in Hhi.
    apply total_bind.
    + eapply total_lift_Some. apply bytePoints_at_in_range. lia.
    + intros [[v0 v1] v2]. total_tac2.
      * apply total_addJacobian.
      * apply IH; lia.
Qed.

(** C10: for every input k, the reduced scalar has at most 32 bytes,
    diff = 32 - len(newK) is not negative, every window index diff + i is in
    [0, 32) and every byte index in [0, 256), so no table access of
    [ScalarBaseMult] is out of bounds and the call returns. *)
Theorem ScalarBaseMult_in_bounds (bytePoints : Z -> Z -> Z * Z * Z)
    (k : list byte) (m : mem) :
  let newK := moduloReduce k in
  let diff := 32 - Z.of_nat (length newK) in
  (length newK <= 32)%nat /\
  0 <= diff /\
  (forall (i : nat) (byteVal : byte), newK !! i = Some byteVal ->
     0 <= diff + Z.of_nat i < 32 /\
     0 <= byte.unsigned byteVal < 256 /\
     bytePoints_at bytePoints (diff + Z.of_nat i) (byte.unsigned byteVal)
     = Some (bytePoints (diff + Z.of_nat i) (byte.unsigned byteVal))) /\
  exists r m', ScalarBaseMult bytePoints k m = Some (r, m').
Proof.
  intros newK diff.
  pose proof (length_moduloReduce k) as Hlen. fold newK in Hlen.
  split; [exact Hlen|]. split; [subst diff; lia|]. split.
  - intros i b Hi. pose proof (lookup_lt_Some _ _ _ Hi) as Hlt.
    assert (Hr : 0 <= diff + Z.of_nat i < 32) by (subst diff; lia).
    split; [exact Hr|]. split; [apply (byte.unsigned_range b)|].
    apply bytePoints_at_in_range. exact Hr.
  - assert (Ht : total (ScalarBaseMult bytePoints k)).
    { unfold ScalarBaseMult. fold newK. fold diff. cbv zeta.
      total_tac2.
      - apply total_scalarBaseMult_loop; subst diff; lia.
      - apply total_fieldJacobianToBigAffine. }
    apply Ht.
Qed.

(** ** The affine entry points at the identity *)

(** C8: [Add] returns the other operand when one operand is the affine
    pair (0, 0): Add(0, 0, x, y) = (x, y) and Add(x, y, 0, 0) = (x, y). *)
Theorem Add_identity (x1 y1 x2 y2 : ptr) (m : mem) :
  (big m x1 = 0 -> big m y1 = 0 ->
   Add x1 y1 x2 y2 m = Some ((x2, y2), m)) /\
  (big m x2 = 0 -> big m y2 = 0 ->
   exists rx ry, Add x1 y1 x2 y2 m = Some ((rx, ry), m) /\
     big m rx = big m x1 /\ big m ry = big m y1).
Proof.
  split.
  - intros Hx Hy. unfold Add. do 2 mstep. rewrite Hx, Hy. reflexivity.
  - intros Hx Hy. unfold Add. do 2 mstep.
    destruct ((Z.sgn (big m x1) =? 0) && (Z.sgn (big m y1) =? 0)) eqn:E.
    + apply andb_true_iff in E as [E1 E2].
      apply Z.eqb_eq in E1. rewrite Z.sgn_null_iff in E1.
      apply Z.eqb_eq in E2. rewrite Z.sgn_null_iff in E2.
      exists x2, y2. split; [reflexivity|]. split; congruence.
    + do 2 mstep. rewrite Hx, Hy. exists x1, y1. split; [reflexivity|].
      split; reflexivity.
Qed.

Ltac mcall lem :=
  erewrite (bind_run _ _ _ _ _ lem); cbv beta; fsimpl.

(** C9: [IsOnCurve] rejects (0, 0), the affine encoding of the point at
    infinity. *)
Theorem IsOnCurve_origin (x y : ptr) (m : mem) :
  big m x = 0 -> big m y = 0 ->
  exists m', IsOnCurve x y m = Some (false, m').
Proof.
  intros Hx Hy. unfold IsOnCurve.
  mcall (bigAffineToField_run x y m). rewrite Hx, Hy. cbn [Z.abs].
  repeat mstep.
  lazymatch goal with
  | |- context [ fieldVal.Equals ?a ?b ?mm ] => rewrite (Equals_run a b mm)
  end.
  fsimpl. eexists. reflexivity.
Qed.

(** ** Points whose coordinates are zero in the field *)

Lemma fnormalize_zero (a : Z) : feq a 0 -> fnormalize a = 0.
Proof. intros H. unfold fnormalize. rewrite H. reflexivity. Qed.

Lemma fmul_zero_l (a b : Z) : feq a 0 -> fmul a b = 0.
Proof.
  intros H. assert (H' : feq (a * b) (0 * b)) by (rewrite H; reflexivity).
  unfold fmul. rewrite H'. reflexivity.
Qed.

Lemma fmul_zero_r (a b : Z) : feq b 0 -> fmul a b = 0.
Proof. intros H. unfold fmul. rewrite Z.mul_comm. apply fmul_zero_l, H. Qed.

Lemma doubleJacobian_zero (x1 y1 z1 x3 y3 z3 : ptr) (m : mem) :
  feq (fld m y1) 0 ->
  doubleJacobian x1 y1 z1 x3 y3 z3 m
  = Some (tt, fwrite (fwrite (fwrite m x3 0) y3 0) z3 0).
Proof.
  intros Hy. unfold doubleJacobian. do 3 mstep.
  rewrite (fnormalize_zero _ Hy). cbn [Z.eqb].
  do 2 mstep. reflexivity.
Qed.

Section InPlaceAdd.
Variables qx qy qz px py pz : ptr.
Variable m : mem.
Hypothesis Hqx : (qx < fnext m)%nat.
Hypothesis Hqy : (qy < fnext m)%nat.
Hypothesis Hqz : (qz < fnext m)%nat.
Hypothesis Hpx : (px < fnext m)%nat.
Hypothesis Hpy : (py < fnext m)%nat.
Hypothesis Hpz : (pz < fnext m)%nat.
Hypothesis Nq1 : qx <> qy.
Hypothesis Nq2 : qx <> qz.
Hypothesis Nq3 : qy <> qz.
Hypothesis Zqx : feq (fld m qx) 0.
Hypothesis Zqy : feq (fld m qy) 0.
Hypothesis Zpx : feq (fld m px) 0.
Hypothesis Zpy : feq (fld m py) 0.

Lemma addJacobian_zero :
  exists m', addJacobian qx qy qz px py pz qx qy qz m = Some (tt, m') /\
    fnext m' = fnext m /\
    feq (fld m' qx) 0 /\ feq (fld m' qy) 0 /\
    (forall r, r <> qx -> r <> qy -> r <> qz -> feq (fld m' r) (fld m r)).
Proof.
  assert (Nq1' : qy <> qx) by congruence.
  assert (Nq2' : qz <> qx) by congruence.
  assert (Nq3' : qz <> qy) by congruence.
  unfold addJacobian. do 6 mstep.
  destruct (fnormalize (fld m qz) =? 0).
  { do 2 mstep. mlast. eexists. split; [reflexivity|].
    repeat split; intros; fsimpl; auto; reflexivity. }
  destruct (fnormalize (fld m pz) =? 0).
  { do 2 mstep. mlast. eexists. split; [reflexivity|].
    repeat split; intros; fsimpl; auto; reflexivity. }
  destruct (fnormalize (fld m qz) =? fnormalize (fld m pz)).
  { addZ_normalize qx qy px py m.
    rewrite (fnormalize_zero _ Zqx), (fnormalize_zero _ Zpx). cbn [Z.eqb].
    mstep.
    rewrite (fld_normalized4_y1 qx qy px py m), (fld_normalized4_y2 qx qy px py m).
    rewrite (fnormalize_zero _ Zqy), (fnormalize_zero _ Zpy). cbn [Z.eqb].
    rewrite doubleJacobian_zero.
    2:{ rewrite fld_normalized4_feq. exact Zqy. }
    eexists. split; [reflexivity|].
    repeat split; intros; fsimpl;
      first [ reflexivity | apply fnext_normalized4
            | apply fld_normalized4_feq ]. }
  cbv zeta.
  rewrite (fmul_zero_l (fld m qx)), (fmul_zero_l (fld m px)) by assumption.
  cbn [Z.eqb].
  rewrite (fmul_zero_l (fmul (fld m qy) (fld m pz))),
          (fmul_zero_l (fmul (fld m py) (fld m qz)))
    by (rewrite fmul_zero_l by assumption; reflexivity).
  cbn [Z.eqb].
  rewrite doubleJacobian_zero by exact Zqy.
  eexists. split; [reflexivity|].
  repeat split; intros; fsimpl; reflexivity.
Qed.
End InPlaceAdd.

Lemma lift_run {A : Type} (o : option A) (a : A) (m : mem) :
  o = Some a -> lift o m = Some (a, m).
Proof. intros ->. reflexivity. Qed.

Section ZeroLoops.
Variables qx qy qz : ptr.
Variables p1x p1y p1yNeg p1z : ptr.
Variables p2x p2y p2yNeg p2z : ptr.
Variable top : nat.

Local Abbreviation coords := (point_coords p1x p1y p1yNeg p2x p2y p2yNeg).

Hypothesis Hq : (qx < top)%nat /\ (qy < top)%nat /\ (qz < top)%nat.
Hypothesis Nq : qx <> qy /\ qx <> qz /\ qy <> qz.
Hypothesis Hz : (p1z < top)%nat /\ (p2z < top)%nat.
Hypothesis Hp :
  Forall (fun p => (p < top)%nat /\ p <> qx /\ p <> qy /\ p <> qz) coords.

Local Abbreviation zero_inv := (zero_coords qx qy coords top).

Lemma zero_inv_double (m : mem) :
  zero_inv m ->
  exists m', doubleJacobian qx qy qz qx qy qz m = Some (tt, m') /\
             zero_inv m'.
Proof.
  intros (Hn & Zx & Zy & Zp).
  destruct Nq as (N1 & N2 & N3).
  rewrite doubleJacobian_zero by exact Zy.
  eexists. split; [reflexivity|].
  assert (qy <> qx) by congruence. assert (qz <> qx) by congruence.
  assert (qz <> qy) by congruence.
  split; [fsimpl; exact Hn|]. split; [fsimpl; reflexivity|].
  split; [fsimpl; reflexivity|].
  rewrite List.Forall_forall in *. intros p Hin.
  destruct (Hp p Hin) as (_ & A & B & C). fsimpl. apply Zp, Hin.
Qed.

Lemma zero_inv_add (px py pz : ptr) (m : mem) :
  In px coords -> In py coords -> (pz < top)%nat ->
  zero_inv m ->
  exists m', addJacobian qx qy qz px py pz qx qy qz m = Some (tt, m') /\
             zero_inv m'.
Proof.
  intros Ix Iy Hpz (Hn & Zx & Zy & Zp).
  destruct Nq as (N1 & N2 & N3). destruct Hq as (H1 & H2 & H3).
  pose proof Hp as Hp'. rewrite List.Forall_forall in Hp'.
  pose proof Zp as Zp'. rewrite List.Forall_forall in Zp'.
  destruct (Hp' px Ix) as (Lx & _). destruct (Hp' py Iy) as (Ly & _).
  destruct (addJacobian_zero qx qy qz px py pz m) as (m' & E & En & Ex & Ey & Fr);
    try (rewrite Hn; assumption); auto.
  exists m'. split; [exact E|].
  split; [congruence|]. split; [exact Ex|]. split; [exact Ey|].
  rewrite List.Forall_forall. intros p Hin.
  destruct (Hp' p Hin) as (_ & A & B & C).
  rewrite (Fr p A B C). apply Zp', Hin.
Qed.

Lemma zero_inv_bits (n : nat) :
  forall (b1p b1n b2p b2n : byte) (m : mem),
  zero_inv m ->
  exists m',
    scalarMult_bits qx qy qz p1x p1y p1yNeg p1z p2x p2y p2yNeg p2z
      n b1p b1n b2p b2n m = Some (tt, m') /\ zero_inv m'.
Proof.
  destruct Hz as (Hz1 & Hz2).
  induction n as [|j IH]; intros b1p b1n b2p b2n m Hm.
  - exists m. split; [reflexivity | exact Hm].
  - cbn [scalarMult_bits].
    destruct (zero_inv_double m Hm) as (m1 & E1 & Hm1).
    rewrite (bind_run _ _ _ _ _ E1).
    assert (S2 : exists m2,
      (if top_bit b1p then addJacobian qx qy qz p1x p1y p1z qx qy qz
       else if top_bit b1n then addJacobian qx qy qz p1x p1yNeg p1z qx qy qz
       else mret tt) m1 = Some (tt, m2) /\ zero_inv m2).
    { destruct (top_bit b1p); [|destruct (top_bit b1n)].
      - apply zero_inv_add; cbn; auto.
      - apply zero_inv_add; cbn; auto.
      - exists m1. split; [reflexivity | exact Hm1]. }
    destruct S2 as (m2 & E2 & Hm2). rewrite (bind_run _ _ _ _ _ E2).
    assert (S3 : exists m3,
      (if top_bit b2p then addJacobian qx qy qz p2x p2y p2z qx qy qz
       else if top_bit b2n then addJacobian qx qy qz p2x p2yNeg p2z qx qy qz
       else mret tt) m2 = Some (tt, m3) /\ zero_inv m3).
    { destruct (top_bit b2p); [|destruct (top_bit b2n)].
      - apply zero_inv_add; cbn; auto 10.
      - apply zero_inv_add; cbn; auto 10.
      - exists m2. split; [reflexivity | exact Hm2]. }
    destruct S3 as (m3 & E3 & Hm3). rewrite (bind_run _ _ _ _ _ E3).
    apply IH. exact Hm3.
Qed.

Variables k1PosNAF k1NegNAF k2PosNAF k2NegNAF : list byte.
Variable mlen : nat.
Hypothesis L1 : length k1PosNAF = length k1NegNAF.
Hypothesis L2 : length k2PosNAF = length k2NegNAF.
Hypothesis M1 : (length k1PosNAF <= mlen)%nat.
Hypothesis M2 : (length k2PosNAF <= mlen)%nat.

Lemma naf_bytes_at_Some (pos neg : list byte) (i : nat) :
  length pos = length neg -> (length pos <= mlen)%nat -> (i < mlen)%nat ->
  exists bp bn, naf_bytes_at mlen pos neg (length pos) i = Some (bp, bn).
Proof.
  intros Hl Hm Hi. unfold naf_bytes_at.
  destruct (Nat.ltb_spec i (mlen - length pos)).
  - eexists _, _. reflexivity.
  - destruct (lookup_lt_is_Some_2 pos (i - (mlen - length pos))) as [bp Ep]; [lia|].
    destruct (lookup_lt_is_Some_2 neg (i - (mlen - length pos))) as [bn En]; [lia|].
    rewrite Ep, En. eexists _, _. reflexivity.
Qed.

Lemma zero_inv_bytes (n : nat) :
  forall (i : nat) (m : mem), (i + n = mlen)%nat ->
  zero_inv m ->
  exists m',
    scalarMult_bytes qx qy qz p1x p1y p1yNeg p1z p2x p2y p2yNeg p2z
      k1PosNAF k1NegNAF k2PosNAF k2NegNAF mlen n i m = Some (tt, m') /\
    zero_inv m'.
Proof.
  induction n as [|n IH]; intros i m Hi Hm.
  - exists m. split; [reflexivity | exact Hm].
  - cbn [scalarMult_bytes].
    destruct (naf_bytes_at_Some k1PosNAF k1NegNAF i L1 M1 ltac:(lia)) as (a1 & a2 & Ea).
    destruct (naf_bytes_at_Some k2PosNAF k2NegNAF i L2 M2 ltac:(lia)) as (c1 & c2 & Ec).
    rewrite (bind_run _ _ _ _ _ (lift_run _ _ m Ea)).
    rewrite (bind_run _ _ _ _ _ (lift_run _ _ m Ec)).
    destruct (zero_inv_bits 8 a1 a2 c1 c2 m Hm) as (m1 & E1 & Hm1).
    rewrite (bind_run _ _ _ _ _ E1).
    apply IH; [lia | exact Hm1].
Qed.
End ZeroLoops.

Lemma splitK_zero (k : list byte) :
  be_value k mod curve_N = 0 -> splitK (moduloReduce k) = ([], [], 0, 0).
Proof. intros H. unfold moduloReduce. rewrite H. reflexivity. Qed.

Lemma fieldJacobianToBigAffine_zero (x y z : ptr) (m : mem) :
  (x < fnext m)%nat -> (y < fnext m)%nat -> (z < fnext m)%nat ->
  x <> y -> x <> z -> y <> z ->
  feq (fld m x) 0 -> feq (fld m y) 0 ->
  exists rx ry m', fieldJacobianToBigAffine x y z m = Some ((rx, ry), m') /\
    big m' rx = 0 /\ big m' ry = 0.
Proof.
  intros Hx Hy Hz Nxy Nxz Nyz Zx Zy.
  destruct (fieldJacobianToBigAffine_spec x y z m Hx Hy Hz Nxy Nxz Nyz)
    as (m' & E & _ & _ & _ & Bx & By & _).
  exists (bnext m), (S (bnext m)), m'. split; [exact E|].
  rewrite Bx, By, !(fmul_zero_l _ _ Zx), !(fmul_zero_l _ _ Zy).
  split; reflexivity.
Qed.

Lemma ScalarMult_zero_scalar (Bx By : ptr) (k : list byte) (m : mem) :
  be_value k mod curve_N = 0 ->
  exists rx ry m', ScalarMult Bx By k m = Some ((rx, ry), m') /\
    big m' rx = 0 /\ big m' ry = 0.
Proof.
  intros Hk. unfold ScalarMult. do 3 mstep.
  rewrite (splitK_zero k Hk).
  mcall (bigAffineToField_run Bx By (falloc (falloc (falloc m)))).
  repeat mstep.
  change (0 =? -1) with false. cbv iota.
  rewrite (bind_run _ _ _ _ _ (lift_run _ _ _ NAF_empty)).
  rewrite (bind_run _ _ _ _ _ (lift_run _ _ _ NAF_empty)).
  cbn [length Nat.ltb Nat.leb scalarMult_bytes]. cbv zeta.
  rewrite (bind_run _ _ _ _ _ (ret_run tt _)).
  apply fieldJacobianToBigAffine_zero; try ptr_side; fsimpl; reflexivity.
Qed.

Lemma ScalarMult_zero_point (Bx By : ptr) (k : list byte) (m : mem) :
  big m Bx = 0 -> big m By = 0 ->
  exists rx ry m', ScalarMult Bx By k m = Some ((rx, ry), m') /\
    big m' rx = 0 /\ big m' ry = 0.
Proof.
  intros HBx HBy. unfold ScalarMult. do 3 mstep.
  destruct (splitK (moduloReduce k)) as [[[k1 k2] signK1] signK2].
  destruct (NAF_masks k1) as (pos1 & neg1 & E1 & L1 & _).
  destruct (NAF_masks k2) as (pos2 & neg2 & E2 & L2 & _).
  mcall (bigAffineToField_run Bx By (falloc (falloc (falloc m)))).
  rewrite HBx, HBy. cbn [Z.abs].
  repeat mstep.
  lazymatch goal with
  | |- exists rx ry m', ?c ?mm = _ /\ _ => set (ms := mm)
  end.
  assert (Hn : fnext ms = (12 + fnext m)%nat) by (subst ms; next_simpl; reflexivity).
  assert (Z0 : feq (fld ms (fnext m)) 0) by (subst ms; fsimpl; reflexivity).
  assert (Z1 : feq (fld ms (S (fnext m))) 0) by (subst ms; fsimpl; reflexivity).
  assert (Z3 : feq (fld ms (3 + fnext m)%nat) 0)
    by (subst ms; cbn [Nat.add]; fsimpl; reflexivity).
  assert (Z4 : feq (fld ms (4 + fnext m)%nat) 0)
    by (subst ms; cbn [Nat.add]; fsimpl; reflexivity).
  assert (Z5 : feq (fld ms (5 + fnext m)%nat) 0)
    by (subst ms; cbn [Nat.add]; fsimpl; apply feq_fnegate).
  assert (Z8 : feq (fld ms (8 + fnext m)%nat) 0)
    by (subst ms; cbn [Nat.add]; fsimpl; reflexivity).
  assert (Z9 : feq (fld ms (9 + fnext m)%nat) 0)
    by (subst ms; cbn [Nat.add]; fsimpl; reflexivity).
  assert (Z10 : feq (fld ms (10 + fnext m)%nat) 0)
    by (subst ms; cbn [Nat.add]; fsimpl; apply feq_fnegate).
  cbn [Nat.add] in *.
  clearbody ms. set (n := fnext m) in *. clearbody n.
  set (mlen := if (length pos1 <? length pos2)%nat
               then length pos2 else length pos1).
  assert (M1 : (length pos1 <= mlen)%nat)
    by (subst mlen; destruct (Nat.ltb_spec (length pos1) (length pos2)); lia).
  assert (M2 : (length pos2 <= mlen)%nat)
    by (subst mlen; destruct (Nat.ltb_spec (length pos1) (length pos2)); lia).
  destruct (signK1 =? -1), (signK2 =? -1); cbv beta iota zeta;
    rewrite (bind_run _ _ _ _ _ (lift_run _ _ _ E1));
    rewrite (bind_run _ _ _ _ _ (lift_run _ _ _ E2));
    fold mlen;
    lazymatch goal with
    | |- context [ scalarMult_bytes ?qx ?qy ?qz ?a ?b ?c ?d ?e ?f ?g ?h
                     _ _ _ _ _ _ _ ] =>
        destruct (zero_inv_bytes qx qy qz a b c d e f g h (12 + n)%nat)
          with (k1PosNAF := pos1) (k1NegNAF := neg1) (k2PosNAF := pos2)
               (k2NegNAF := neg2) (mlen := mlen) (n := mlen) (i := 0%nat)
               (m := ms)
          as (m1 & El & (Hn1 & Zx1 & Zy1 & _))
    end;
    try lia; try assumption;
    try (repeat split; lia);
    try (unfold point_coords; repeat constructor; lia);
    try (split; [exact Hn|]; split; [exact Z0|]; split; [exact Z1|];
         unfold point_coords; repeat constructor; assumption).
  all: rewrite (bind_run _ _ _ _ _ El).
  all: apply fieldJacobianToBigAffine_zero; try lia; assumption.
Qed.

(** C7, amended: [bigAffineToField] leaves every big integer and every
    existing field cell unchanged and returns two fresh field cells;
    [fieldJacobianToBigAffine] overwrites its three (distinct) argument
    cells: on return Z holds 1 and X, Y hold the normalized affine
    coordinates X / Z^2 and Y / Z^3, which are also the values of the two
    fresh big integers it returns; no other existing cell changes. *)
Theorem converter_effects :
  (forall (x y : ptr) (m : mem),
     exists fx fy m', bigAffineToField x y m = Some ((fx, fy), m') /\
       (fnext m <= fx)%nat /\ (fnext m <= fy)%nat /\
       fld m' fx = Z.abs (big m x) /\ fld m' fy = Z.abs (big m y) /\
       (forall p, big m' p = big m p) /\ bnext m' = bnext m /\
       (forall q, (q < fnext m)%nat -> fld m' q = fld m q)) /\
  (forall (x y z : ptr) (m : mem),
     (x < fnext m)%nat -> (y < fnext m)%nat -> (z < fnext m)%nat ->
     x <> y -> x <> z -> y <> z ->
     let zInv := finverse (fld m z) in
     let X := fnormalize (fmul (fld m x) (fmul zInv zInv)) in
     let Y := fnormalize (fmul (fld m y) (fmul (fmul zInv zInv) zInv)) in
     exists rx ry m', fieldJacobianToBigAffine x y z m = Some ((rx, ry), m') /\
       fld m' x = X /\ fld m' y = Y /\ fld m' z = 1 /\
       (bnext m <= rx)%nat /\ (bnext m <= ry)%nat /\
       big m' rx = X /\ big m' ry = Y /\
       (forall p, (p < bnext m)%nat -> big m' p = big m p) /\
       (forall q, (q < fnext m)%nat -> q <> x -> q <> y -> q <> z ->
                  fld m' q = fld m q)).
Proof.
  split.
  - intros x y m. eexists _, _, _. split; [apply bigAffineToField_run|].
    repeat split; intros; fsimpl; try reflexivity; lia.
  - intros x y z m Hx Hy Hz Nxy Nxz Nyz zInv X Y.
    destruct (fieldJacobianToBigAffine_spec x y z m Hx Hy Hz Nxy Nxz Nyz)
      as (m' & E & Ex & Ey & Ez & Bx & By & Fb & Ff).
    exists (bnext m), (S (bnext m)), m'. split; [exact E|].
    repeat split; auto.
Qed.

Lemma converter_effects_witness :
  exists rx ry m', fieldJacobianToBigAffine 0 1 2 mem_xyz = Some ((rx, ry), m') /\
    fld m' 2%nat = 1 /\ big m' rx = fld m' 0%nat /\ big m' ry = fld m' 1%nat.
Proof.
  destruct (proj2 converter_effects 0 1 2 mem_xyz)%nat
    as (rx & ry & m' & E & Ex & Ey & Ez & _ & _ & Bx & By & _);
    try (vm_compute; lia).
  exists rx, ry, m'. split; [exact E|]. split; [exact Ez|].
  split; congruence.
Defined.

(** C7 as stated fails: [fieldJacobianToBigAffine] run on (X, Y, Z) =
    (4, 8, 2) leaves 1 in the Z cell. *)
Lemma fieldJacobianToBigAffine_overwrites_z :
  exists r m', fieldJacobianToBigAffine 0 1 2 mem_xyz = Some (r, m') /\
    fld mem_xyz 2%nat = 2 /\ fld m' 2%nat = 1.
Proof.
  destruct (fieldJacobianToBigAffine_spec 0 1 2 mem_xyz)%nat
    as (m' & E & _ & _ & Ez & _); try (vm_compute; lia).
  eexists _, m'. split; [exact E|]. split; [vm_compute; reflexivity | exact Ez].
Qed.

Lemma addZ1EqualsZ2_formula_witness :
  exists m',
    addZ1EqualsZ2 0 1 2 3 4 5 6 7 mem_two_points = Some (tt, m') /\
    feq (fld m' 5%nat) (-29) /\ feq (fld m' 6%nat) 98 /\ feq (fld m' 7%nat) 9.
Proof.
  assert (L : forall p, (p < 8)%nat -> (p < fnext mem_two_points)%nat)
    by (intros p Hp; vm_compute; lia).
  assert (Hne : fnormalize (fld mem_two_points 0)
                <> fnormalize (fld mem_two_points 3))
    by (vm_compute; discriminate).
  destruct (addZ1EqualsZ2_formula 0 1 2 3 4 5 6 7 mem_two_points
              (L 0%nat ltac:(lia)) (L 1%nat ltac:(lia)) (L 2%nat ltac:(lia))
              (L 3%nat ltac:(lia)) (L 4%nat ltac:(lia)) (L 5%nat ltac:(lia))
              (L 6%nat ltac:(lia)) (L 7%nat ltac:(lia))
              ltac:(lia) ltac:(lia) ltac:(lia) ltac:(lia) ltac:(lia)
              ltac:(lia) Hne)
    as (m' & E & H1 & H2 & H3).
  exists m'. split; [exact E|]. split; [exact H1|]. split; [exact H2 | exact H3].
Defined.

Lemma addZ1EqualsZ2_same_x_witness :
  addZ1EqualsZ2 0 1 2 3 4 5 6 7 mem_same_point
  = doubleJacobian 0 1 2 5 6 7 (normalized4 0 1 3 4 mem_same_point) /\
  exists m', addZ1EqualsZ2 0 1 2 3 4 5 6 7 mem_opposite = Some (tt, m') /\
    fld m' 5%nat = 0 /\ fld m' 6%nat = 0 /\ fld m' 7%nat = 0.
Proof.
  split.
  - apply (addZ1EqualsZ2_same_x 0 1 2 3 4 5 6 7 mem_same_point);
      vm_compute; reflexivity.
  - apply (addZ1EqualsZ2_same_x 0 1 2 3 4 5 6 7 mem_opposite);
      vm_compute; [reflexivity | discriminate].
Defined.

Lemma Add_identity_witness :
  Add 0 1 2 3 (mem_of_bigs [0; 0; curve_Gx; curve_Gy])
  = Some ((2%nat, 3%nat), mem_of_bigs [0; 0; curve_Gx; curve_Gy]) /\
  exists rx ry,
    Add 2 3 0 1 (mem_of_bigs [0; 0; curve_Gx; curve_Gy])
    = Some ((rx, ry), mem_of_bigs [0; 0; curve_Gx; curve_Gy]) /\
    big (mem_of_bigs [0; 0; curve_Gx; curve_Gy]) rx
    = big (mem_of_bigs [0; 0; curve_Gx; curve_Gy]) 2%nat /\
    big (mem_of_bigs [0; 0; curve_Gx; curve_Gy]) ry
    = big (mem_of_bigs [0; 0; curve_Gx; curve_Gy]) 3%nat.
Proof.
  split.
  - apply (proj1 (Add_identity 0 1 2 3 _)); vm_compute; reflexivity.
  - apply (proj2 (Add_identity 2 3 0 1 _)); vm_compute; reflexivity.
Defined.

Lemma IsOnCurve_origin_witness :
  exists m', IsOnCurve 0 1 (mem_of_bigs [0; 0]) = Some (false, m').
Proof.
  apply (IsOnCurve_origin 0 1 (mem_of_bigs [0; 0])); vm_compute; reflexivity.
Defined.

(** ** Footprints of the primitives *)

Section Footprint.
Variables n0 b0 : nat.
Variable S : ptr -> Prop.

Lemma keeps_refl (m : mem) : keeps n0 b0 S m m.
Proof. repeat split; auto. Qed.

Lemma keeps_trans (m1 m2 m3 : mem) :
  (n0 <= fnext m1)%nat -> (b0 <= bnext m1)%nat ->
  keeps n0 b0 S m1 m2 -> keeps n0 b0 S m2 m3 -> keeps n0 b0 S m1 m3.
Proof.
  intros Hn Hb (A1 & A2 & A3 & A4) (B1 & B2 & B3 & B4).
  split; [lia|]. split; [lia|]. split.
  - intros r Hr HS. rewrite B3, A3 by assumption. reflexivity.
  - intros r Hr. rewrite B4, A4 by assumption. reflexivity.
Qed.

Lemma safe_ret {A : Type} (a : A) (Q : A -> Prop) :
  Q a -> safe n0 b0 S (mret a : M A) Q.
Proof.
  intros HQ m _ _. exists a, m. split; [reflexivity|].
  split; [exact HQ | apply keeps_refl].
Qed.

Lemma safe_bind {A B : Type} (c : M A) (k : A -> M B)
    (Q : A -> Prop) (R : B -> Prop) :
  safe n0 b0 S c Q -> (forall a, Q a -> safe n0 b0 S (k a) R) ->
  safe n0 b0 S (c ≫= k) R.
Proof.
  intros Hc Hk m Hn Hb.
  destruct (Hc m Hn Hb) as (a & m1 & E1 & Ha & K1).
  pose proof K1 as (L1 & L2 & _).
  destruct (Hk a Ha m1 ltac:(lia) ltac:(lia)) as (b & m2 & E2 & Hb2 & K2).
  exists b, m2. rewrite (bind_run c k m m1 a E1).
  split; [exact E2|]. split; [exact Hb2|].
  apply (keeps_trans m m1 m2); assumption.
Qed.

Lemma safe_weaken {A : Type} (c : M A) (Q Q' : A -> Prop) :
  safe n0 b0 S c Q -> (forall a, Q a -> Q' a) -> safe n0 b0 S c Q'.
Proof.
  intros Hc HQ m Hn Hb. destruct (Hc m Hn Hb) as (a & m' & E & Ha & K).
  exists a, m'. auto.
Qed.

Lemma safe_if {A : Type} (b : bool) (c1 c2 : M A) (Q : A -> Prop) :
  safe n0 b0 S c1 Q -> safe n0 b0 S c2 Q ->
  safe n0 b0 S (if b then c1 else c2) Q.
Proof. destruct b; auto. Qed.

Lemma safe_lift {A : Type} (o : option A) (a : A) (Q : A -> Prop) :
  o = Some a -> Q a -> safe n0 b0 S (lift o) Q.
Proof.
  intros -> HQ m _ _. exists a, m. split; [reflexivity|].
  split; [exact HQ | apply keeps_refl].
Qed.

Lemma safe_fget (p : ptr) : safe n0 b0 S (fget p) (fun _ => True).
Proof.
  intros m _ _. eexists _, _. split; [apply fget_run|].
  split; [exact I | apply keeps_refl].
Qed.

Lemma safe_fput (p : ptr) (v : Z) :
  (n0 <= p)%nat \/ S p -> safe n0 b0 S (fput p v) (fun _ => True).
Proof.
  intros Hp m _ _. eexists _, _. split; [apply fput_run|].
  split; [exact I|]. repeat split; intros; fsimpl; auto.
  apply fld_fwrite_ne. intros ->. destruct Hp; [lia | contradiction].
Qed.

Lemma safe_fnew : safe n0 b0 S fnew (fun a => (n0 <= a)%nat).
Proof.
  intros m Hn _. eexists _, _. split; [apply fnew_run|].
  split; [exact Hn|]. repeat split; intros; fsimpl; auto.
Qed.

Lemma safe_bget (p : ptr) : safe n0 b0 S (bget p) (fun _ => True).
Proof.
  intros m _ _. eexists _, _. split; [apply bget_run|].
  split; [exact I | apply keeps_refl].
Qed.

Lemma safe_bput (p : ptr) (v : Z) :
  (b0 <= p)%nat -> safe n0 b0 S (bput p v) (fun _ => True).
Proof.
  intros Hp m _ _. eexists _, _. split; [apply bput_run|].
  split; [exact I|]. repeat split; intros; fsimpl; auto.
Qed.

Lemma safe_bnew : safe n0 b0 S bnew (fun a => (b0 <= a)%nat).
Proof.
  intros m _ Hb. eexists _, _. split; [apply bnew_run|].
  split; [exact Hb|]. repeat split; intros; fsimpl; auto.
Qed.
End Footprint.

(** Decompose a body along its syntax.  Writes leave a goal about the
    written cell, calls leave a goal for the callee. *)
Ltac safe_step :=
  lazymatch goal with
  | |- safe _ _ _ (mret _) _ => apply safe_ret
  | |- safe _ _ _ (fget _) _ =>
      eapply safe_weaken; [apply safe_fget | intros ? _]
  | |- safe _ _ _ (fput _ _) _ =>
      eapply safe_weaken; [apply safe_fput | intros ? _]
  | |- safe _ _ _ fnew _ => eapply safe_weaken; [apply safe_fnew | intros ? ?]
  | |- safe _ _ _ (bget _) _ =>
      eapply safe_weaken; [apply safe_bget | intros ? _]
  | |- safe _ _ _ (bput _ _) _ =>
      eapply safe_weaken; [apply safe_bput | intros ? _]
  | |- safe _ _ _ bnew _ => eapply safe_weaken; [apply safe_bnew | intros ? ?]
  | |- safe _ _ _ (if _ then _ else _) _ => apply safe_if
  | |- safe _ _ _ (let _ := _ in _) _ => cbv zeta
  | |- safe _ _ _ (match ?x with (_, _) => _ end) _ => destruct x
  end.

Ltac unfold_methods :=
  unfold fieldVal.Normalize, fieldVal.Equals, fieldVal.SetInt,
    fieldVal.Set_, fieldVal.Negate, fieldVal.NegateVal, fieldVal.Add,
    fieldVal.Add2, fieldVal.AddInt, fieldVal.Mul, fieldVal.Mul2,
    fieldVal.SquareVal, fieldVal.Inverse, fieldVal.Bytes,
    fieldVal.SetByteSlice, bigInt.Sign, bigInt.Bytes, bigInt.SetBytes.

(** A bind whose first computation is a primitive. *)
Ltac safe_bind_prim :=
  lazymatch goal with
  | |- safe _ _ _ (fget _ ≫= _) _ =>
      eapply safe_bind; [apply safe_fget | intros ? _]
  | |- safe _ _ _ (fput _ _ ≫= _) _ =>
      eapply safe_bind; [apply safe_fput | intros ? _]
  | |- safe _ _ _ (fnew ≫= _) _ =>
      eapply safe_bind; [apply safe_fnew | intros ? ?]
  | |- safe _ _ _ (bget _ ≫= _) _ =>
      eapply safe_bind; [apply safe_bget | intros ? _]
  | |- safe _ _ _ (bput _ _ ≫= _) _ =>
      eapply safe_bind; [apply safe_bput | intros ? _]
  | |- safe _ _ _ (bnew ≫= _) _ =>
      eapply safe_bind; [apply safe_bnew | intros ? ?]
  | |- safe ?n ?b ?S ((_ ≫= _) ≫= _) _ =>
      eapply (safe_bind n b S _ _ (fun _ => True)); [ | intros ? _]
  end.

(** The last statement of a method body. *)
Ltac safe_leaf :=
  lazymatch goal with
  | |- safe _ _ _ (mret _) _ => apply safe_ret
  | |- safe _ _ _ (fget _) _ =>
      eapply safe_weaken; [apply safe_fget | intros ? _]
  | |- safe _ _ _ (fput _ _) _ =>
      eapply safe_weaken; [apply safe_fput | intros ? _]
  | |- safe _ _ _ (bget _) _ =>
      eapply safe_weaken; [apply safe_bget | intros ? _]
  | |- safe _ _ _ (bput _ _) _ =>
      eapply safe_weaken; [apply safe_bput | intros ? _]
  end.

Ltac cell_side := first [ left; lia | left; assumption | right; assumption
                        | lia | assumption | exact I | tauto ].

Ltac safe_tac :=
  unfold_methods;
  repeat first [ safe_bind_prim | safe_step ];
  try cell_side.

Section Callees.
Variables n0 b0 : nat.
Variable S : ptr -> Prop.
Let W (p : ptr) : Prop := (n0 <= p)%nat \/ S p.

Lemma safe_doubleJacobian x1 y1 z1 x3 y3 z3 :
  W x3 -> W y3 -> W z3 ->
  safe n0 b0 S (doubleJacobian x1 y1 z1 x3 y3 z3) (fun _ => True).
Proof. unfold W. intros. unfold doubleJacobian. safe_tac. Qed.

Lemma safe_addZ1EqualsZ2 x1 y1 z1 x2 y2 x3 y3 z3 :
  W x1 -> W y1 -> W x2 -> W y2 -> W x3 -> W y3 -> W z3 ->
  safe n0 b0 S (addZ1EqualsZ2 x1 y1 z1 x2 y2 x3 y3 z3) (fun _ => True).
Proof.
  unfold W. intros. unfold addZ1EqualsZ2. safe_tac.
  apply safe_doubleJacobian; assumption.
Qed.

Lemma safe_addJacobian x1 y1 z1 x2 y2 z2 x3 y3 z3 :
  W x1 -> W y1 -> W x2 -> W y2 -> W x3 -> W y3 -> W z3 ->
  safe n0 b0 S (addJacobian x1 y1 z1 x2 y2 z2 x3 y3 z3) (fun _ => True).
Proof.
  intros. unfold addJacobian. safe_tac.
  - apply safe_addZ1EqualsZ2; assumption.
  - apply safe_doubleJacobian; assumption.
Qed.

Lemma safe_bigAffineToField x y :
  safe n0 b0 S (bigAffineToField x y)
       (fun r => (n0 <= fst r)%nat /\ (n0 <= snd r)%nat).
Proof. unfold bigAffineToField. safe_tac; try (cbn; lia). Qed.

Lemma safe_fieldJacobianToBigAffine x y z :
  W x -> W y -> W z ->
  safe n0 b0 S (fieldJacobianToBigAffine x y z)
       (fun r => (b0 <= fst r)%nat /\ (b0 <= snd r)%nat).
Proof.
  unfold W. intros. unfold fieldJacobianToBigAffine. safe_tac; try (cbn; lia).
Qed.
End Callees.

(** ** Footprints of the two multiplications *)

Lemma naf_bytes_at_in_range (mlen : nat) (pos neg : list byte) (i : nat) :
  length pos = length neg -> (length pos <= mlen)%nat -> (i < mlen)%nat ->
  exists bp bn, naf_bytes_at mlen pos neg (length pos) i = Some (bp, bn).
Proof.
  intros Hl Hm Hi. unfold naf_bytes_at.
  destruct (Nat.ltb_spec i (mlen - length pos)).
  - eexists _, _. reflexivity.
  - destruct (lookup_lt_is_Some_2 pos (i - (mlen - length pos))) as [bp Ep];
      [lia|].
    destruct (lookup_lt_is_Some_2 neg (i - (mlen - length pos))) as [bn En];
      [lia|].
    rewrite Ep, En. eexists _, _. reflexivity.
Qed.

Section LoopFootprint.
Variables n0 b0 : nat.
Variable S : ptr -> Prop.
Variables qx qy qz p1x p1y p1yNeg p1z p2x p2y p2yNeg p2z : ptr.

(** The cells the loop may write: new ones, and those in [S]. *)
Let W (p : ptr) : Prop := (n0 <= p)%nat \/ S p.

Hypothesis Hq : W qx /\ W qy /\ W qz.
Hypothesis H1 : W p1x /\ W p1y /\ W p1yNeg.
Hypothesis H2 : W p2x /\ W p2y /\ W p2yNeg.

Lemma safe_scalarMult_bits (n : nat) :
  forall b1p b1n b2p b2n : byte,
  safe n0 b0 S
    (scalarMult_bits qx qy qz p1x p1y p1yNeg p1z p2x p2y p2yNeg p2z
       n b1p b1n b2p b2n) (fun _ => True).
Proof.
  unfold W in *.
  destruct Hq as (? & ? & ?), H1 as (? & ? & ?), H2 as (? & ? & ?).
  induction n as [|j IH]; intros b1p b1n b2p b2n; cbn [scalarMult_bits].
  - apply safe_ret. exact I.
  - eapply safe_bind; [apply safe_doubleJacobian; assumption | intros _ _].
    eapply (safe_bind _ _ _ _ _ (fun _ => True)); [|intros _ _].
    { repeat apply safe_if;
        first [ apply safe_addJacobian; assumption
              | apply safe_ret; exact I ]. }
    eapply (safe_bind _ _ _ _ _ (fun _ => True)); [|intros _ _].
    { repeat apply safe_if;
        first [ apply safe_addJacobian; assumption
              | apply safe_ret; exact I ]. }
    apply IH.
Qed.

Variables k1PosNAF k1NegNAF k2PosNAF k2NegNAF : list byte.
Variable mlen : nat.
Hypothesis L1 : length k1PosNAF = length k1NegNAF.
Hypothesis L2 : length k2PosNAF = length k2NegNAF.
Hypothesis M1 : (length k1PosNAF <= mlen)%nat.
Hypothesis M2 : (length k2PosNAF <= mlen)%nat.

Lemma safe_scalarMult_bytes (n : nat) :
  forall i : nat, (i + n = mlen)%nat ->
  safe n0 b0 S
    (scalarMult_bytes qx qy qz p1x p1y p1yNeg p1z p2x p2y p2yNeg p2z
       k1PosNAF k1NegNAF k2PosNAF k2NegNAF mlen n i) (fun _ => True).
Proof.
  induction n as [|n IH]; intros i Hi; cbn [scalarMult_bytes].
  - apply safe_ret. exact I.
  - destruct (naf_bytes_at_in_range mlen k1PosNAF k1NegNAF i L1 M1 ltac:(lia))
      as (a1 & a2 & Ea).
    destruct (naf_bytes_at_in_range mlen k2PosNAF k2NegNAF i L2 M2 ltac:(lia))
      as (c1 & c2 & Ec).
    eapply safe_bind; [apply (safe_lift _ _ _ _ _ (fun _ => True) Ea I)|].
    intros [x1 x2] _.
    eapply safe_bind; [apply (safe_lift _ _ _ _ _ (fun _ => True) Ec I)|].
    intros [y1 y2] _.
    eapply safe_bind; [apply safe_scalarMult_bits | intros _ _].
    apply IH. lia.
Qed.
End LoopFootprint.

Lemma safe_ScalarMult (n0 b0 : nat) (Bx By : ptr) (k : list byte) :
  safe n0 b0 no_cell (ScalarMult Bx By k)
       (fun r => (b0 <= fst r)%nat /\ (b0 <= snd r)%nat).
Proof.
  unfold ScalarMult.
  destruct (splitK (moduloReduce k)) as [[[k1 k2] signK1] signK2].
  destruct (NAF_masks k1) as (pos1 & neg1 & E1 & L1 & _).
  destruct (NAF_masks k2) as (pos2 & neg2 & E2 & L2 & _).
  do 3 safe_bind_prim.
  eapply safe_bind; [apply safe_bigAffineToField|]. intros [p1x p1y] [Hx Hy].
  cbn [fst snd] in Hx, Hy.
  unfold_methods.
  repeat first [ safe_bind_prim | safe_leaf ].
  all: try cell_side.
  destruct (signK1 =? -1), (signK2 =? -1); cbv beta iota zeta.
  all: eapply safe_bind;
    [apply (safe_lift _ _ _ _ _ (fun r => r = (pos1, neg1)) E1 eq_refl)|];
    intros ? ->; cbv beta iota zeta;
    eapply safe_bind;
    [apply (safe_lift _ _ _ _ _ (fun r => r = (pos2, neg2)) E2 eq_refl)|];
    intros ? ->; cbv beta iota zeta;
    (eapply safe_bind;
     [ apply safe_scalarMult_bytes; try assumption; try lia;
       try (repeat split; left; assumption);
       try (destruct (Nat.ltb_spec (length pos1) (length pos2)); lia)
     | intros _ _ ]);
    apply safe_fieldJacobianToBigAffine; left; assumption.
Qed.


(** ** How [ScalarMult] lifts its input point *)

(** The Z cells of the two lifted points, [p1z] and [p2z], are the seventh
    and the twelfth field value [ScalarMult] allocates.  Both are set to 1
    and no statement of the loop or of the final conversion writes them. *)
Lemma ScalarMult_lifted_z (Bx By : ptr) (k : list byte) (m : mem) :
  exists rx ry m', ScalarMult Bx By k m = Some ((rx, ry), m') /\
    fld m' (6 + fnext m)%nat = 1 /\ fld m' (11 + fnext m)%nat = 1.
Proof.
  unfold ScalarMult. do 3 mstep.
  destruct (splitK (moduloReduce k)) as [[[k1 k2] signK1] signK2].
  destruct (NAF_masks k1) as (pos1 & neg1 & E1 & L1 & _).
  destruct (NAF_masks k2) as (pos2 & neg2 & E2 & L2 & _).
  mcall (bigAffineToField_run Bx By (falloc (falloc (falloc m)))).
  repeat mstep.
  lazymatch goal with
  | |- exists rx ry m', ?c ?mm = _ /\ _ => set (ms := mm)
  end.
  assert (Hn : fnext ms = (12 + fnext m)%nat) by (subst ms; next_simpl; reflexivity).
  assert (Z6 : fld ms (6 + fnext m)%nat = 1)
    by (subst ms; cbn [Nat.add]; fsimpl; reflexivity).
  assert (Z11 : fld ms (11 + fnext m)%nat = 1)
    by (subst ms; cbn [Nat.add]; fsimpl; reflexivity).
  clearbody ms. set (n := fnext m) in *. clearbody n.
  set (mlen := if (length pos1 <? length pos2)%nat
               then length pos2 else length pos1).
  assert (M1 : (length pos1 <= mlen)%nat)
    by (subst mlen; destruct (Nat.ltb_spec (length pos1) (length pos2)); lia).
  assert (M2 : (length pos2 <= mlen)%nat)
    by (subst mlen; destruct (Nat.ltb_spec (length pos1) (length pos2)); lia).
  destruct (signK1 =? -1), (signK2 =? -1); cbv beta iota zeta;
    rewrite (bind_run _ _ _ _ _ (lift_run _ _ _ E1));
    rewrite (bind_run _ _ _ _ _ (lift_run _ _ _ E2));
    fold mlen;
    lazymatch goal with
    | |- context [ scalarMult_bytes ?qx ?qy ?qz ?a ?b ?c ?d ?e ?f ?g ?h
                     _ _ _ _ _ _ _ ] =>
        destruct (safe_scalarMult_bytes (12 + n)%nat (bnext ms)
                    (fun q : ptr => q <> (6 + n)%nat /\ q <> (11 + n)%nat)
                    qx qy qz a b c d e f g h)
          with (k1PosNAF := pos1) (k1NegNAF := neg1) (k2PosNAF := pos2)
               (k2NegNAF := neg2) (mlen := mlen) (n := mlen) (i := 0%nat)
               (m := ms)
          as ([] & m1 & El & _ & (Kn & _ & Kf & _))
    end;
    try assumption; try lia;
    try (repeat split; right; lia).
  all: rewrite (bind_run _ _ _ _ _ El).
  all: destruct (fieldJacobianToBigAffine_spec n (S n)
                   (S (S n)) m1)
         as (m' & E & _ & _ & _ & _ & _ & _ & Fr); try lia.
  all: exists (bnext m1), (S (bnext m1)), m'; split; [exact E|].
  all: rewrite !Fr by lia.
  all: rewrite !Kf by lia.
  all: split; assumption.
Qed.




(** ** The shape of the NAF masks *)

(** X3: [NAF] returns two slices of the same length, which is len(k) or
    len(k) + 1; in the longer case the extra leading byte is 0x01 in retPos
    and 0x00 in retNeg. *)
Theorem NAF_lengths (k : list byte) :
  exists retPos retNeg, NAF k = Some (retPos, retNeg) /\
    length retPos = length retNeg /\
    (length retPos = length k \/
     (length retPos = S (length k) /\
      retPos !! 0%nat = Some Byte.x01 /\ retNeg !! 0%nat = Some Byte.x00)).
Proof.
  unfold NAF.
  destruct (naf_loop_ok k (length k) (le_n _)
             (NafState false (replicate (length k + 1) Byte.x00)
                             (replicate (length k + 1) Byte.x00)))
    as (st & E & HlP & HlN & Hinv).
  { unfold naf_ok. cbn [carry retPos retNeg].
    rewrite !length_replicate, !be_value_replicate_zero.
    replace (8 * (Z.of_nat (length k) - Z.of_nat (length k))) with 0 by lia.
    split; [lia|]. split; [lia|]. apply naf_inv_init. }
  rewrite E. cbn [mbind option_bind].
  destruct (carry st) eqn:Ec.
  - destruct (lookup_lt_is_Some_2 (retPos st) 0) as [old Hold]; [lia|].
    rewrite Hold. cbn [mbind option_bind].
    eexists _, _. split; [reflexivity|].
    rewrite length_insert. split; [lia|]. right. split; [exact HlP|].
    split; [apply list_lookup_insert_eq; lia|].
    destruct (lookup_lt_is_Some_2 (retNeg st) 0) as [b Hb]; [lia|].
    rewrite Hb. f_equal. apply byte.unsigned_inj.
    rewrite (be_value_lookup _ _ _ Hb), HlN.
    pose proof (inv_neg _ _ _ _ _ Hinv) as Hn.
    replace (8 * (Z.of_nat (S (length k)) - 1 - Z.of_nat 0))
      with (8 * Z.of_nat (length k)) by lia.
    rewrite Z.div_small by lia. reflexivity.
  - eexists _, _. split; [reflexivity|].
    rewrite !length_drop. split; [lia|]. left. lia.
Qed.

(** ** Conversion of special points *)

Lemma pow_mod_zero (a : Z) (e : positive) (n : Z) :
  a mod n = 0 -> pow_mod a e n = 0.
Proof.
  intros Ha. induction e as [e IH|e IH|]; cbn [pow_mod].
  - rewrite IH. reflexivity.
  - rewrite IH. reflexivity.
  - exact Ha.
Qed.

Lemma pow_mod_one (e : positive) (n : Z) : 1 < n -> pow_mod 1 e n = 1.
Proof.
  intros Hn. induction e as [e IH|e IH|]; cbn [pow_mod].
  - rewrite IH. change (1 * 1) with 1. rewrite (Z.mod_small 1 n) by lia.
    change (1 * 1) with 1. apply Z.mod_small. lia.
  - rewrite IH. change (1 * 1) with 1. apply Z.mod_small. lia.
  - apply Z.mod_small. lia.
Qed.

Lemma finverse_zero (a : Z) : feq a 0 -> finverse a = 0.
Proof. intros H. apply pow_mod_zero. exact H. Qed.

Lemma finverse_one : finverse 1 = 1.
Proof. apply pow_mod_one. reflexivity. Qed.

(** X4: a Jacobian point with Z = 0 in the field (the point at infinity)
    is converted to the affine pair (0, 0), whatever X and Y are. *)
Theorem fieldJacobianToBigAffine_infinity (x y z : ptr) (m : mem) :
  (x < fnext m)%nat -> (y < fnext m)%nat -> (z < fnext m)%nat ->
  x <> y -> x <> z -> y <> z ->
  feq (fld m z) 0 ->
  exists rx ry m', fieldJacobianToBigAffine x y z m = Some ((rx, ry), m') /\
    big m' rx = 0 /\ big m' ry = 0.
Proof.
  intros Hx Hy Hz Nxy Nxz Nyz Zz.
  destruct (fieldJacobianToBigAffine_spec x y z m Hx Hy Hz Nxy Nxz Nyz)
    as (m' & E & _ & _ & _ & Bx & By & _).
  exists (bnext m), (S (bnext m)), m'. split; [exact E|].
  rewrite Bx, By, (finverse_zero _ Zz).
  repeat rewrite (fmul_zero_r _ 0) by reflexivity.
  split; reflexivity.
Qed.

Lemma fieldJacobianToBigAffine_infinity_witness :
  exists rx ry m',
    fieldJacobianToBigAffine 0 1 2 (mem_of_fields [4; 8; 0])
    = Some ((rx, ry), m') /\ big m' rx = 0 /\ big m' ry = 0.
Proof.
  apply (fieldJacobianToBigAffine_infinity 0 1 2 (mem_of_fields [4; 8; 0]));
    try (vm_compute; lia); try lia; try (vm_compute; reflexivity).
Defined.

(** X5: lifting an affine pair with [bigAffineToField], giving it Z = 1 and
    lowering it with [fieldJacobianToBigAffine] returns the absolute values
    of the two coordinates reduced modulo P: the pair itself when both are
    in [0, P). *)
Theorem affine_round_trip (x y : ptr) (m : mem) :
  exists rx ry m',
    ('(fx, fy) ← bigAffineToField x y;
     fz ← fnew; fieldVal.SetInt fz 1;;
     fieldJacobianToBigAffine fx fy fz) m = Some ((rx, ry), m') /\
    big m' rx = Z.abs (big m x) mod fieldPrime /\
    big m' ry = Z.abs (big m y) mod fieldPrime.
Proof.
  mcall (bigAffineToField_run x y m). do 2 mstep.
  lazymatch goal with
  | |- context [ fieldJacobianToBigAffine ?a ?b ?c ?mm ] =>
      destruct (fieldJacobianToBigAffine_spec a b c mm)
        as (m' & E & _ & _ & _ & Bx & By & _); try ptr_side
  end.
  exists (bnext m), (S (bnext m)), m'.
  revert E Bx By. fsimpl. intros E Bx By. split; [exact E|].
  rewrite Bx, By, finverse_one.
  change (fmul 1 1) with 1. change (fmul 1 1) with 1.
  unfold fnormalize, fmul. rewrite !Z.mul_1_r, !Z.mod_mod by discriminate.
  split; reflexivity.
Qed.

(** ** The affine entry points *)

(** X6: [Double] of a point whose y is zero returns two new big integers
    holding zero, without touching any other value. *)
Theorem Double_zero_y (x1 y1 : ptr) (m : mem) :
  big m y1 = 0 ->
  exists r1 r2 m', Double x1 y1 m = Some ((r1, r2), m') /\
    r1 <> r2 /\ (bnext m <= r1)%nat /\ (bnext m <= r2)%nat /\
    big m' r1 = 0 /\ big m' r2 = 0 /\
    (forall p, (p < bnext m)%nat -> big m' p = big m p) /\
    (forall q, fld m' q = fld m q).
Proof.
  intros Hy. unfold Double. mstep. rewrite Hy. cbn [Z.sgn Z.eqb].
  do 2 mstep. rewrite ret_run.
  eexists _, _, _. split; [reflexivity|].
  repeat split; intros; fsimpl; try reflexivity; lia.
Qed.

Lemma Double_zero_y_witness :
  exists r1 r2 m', Double 0 1 (mem_of_bigs [5; 0]) = Some ((r1, r2), m') /\
    big m' r1 = 0 /\ big m' r2 = 0.
Proof.
  destruct (Double_zero_y 0 1 (mem_of_bigs [5; 0]))
    as (r1 & r2 & m' & E & _ & _ & _ & B1 & B2 & _).
  - vm_compute. reflexivity.
  - exists r1, r2, m'. auto.
Defined.

(** X7: [IsOnCurve] returns for every pair of big integers, its answer is
    whether |y|^2 = |x|^3 + 7 holds modulo P (the sign of a coordinate is
    dropped), and no existing value is changed. *)
Theorem IsOnCurve_equation (x y : ptr) (m : mem) :
  let X := Z.abs (big m x) in
  let Y := Z.abs (big m y) in
  exists m',
    IsOnCurve x y m
    = Some (((Y * Y) mod fieldPrime =? (X * X * X + 7) mod fieldPrime), m') /\
    (forall p, big m' p = big m p) /\
    (forall q, (q < fnext m)%nat -> fld m' q = fld m q).
Proof.
  intros X Y. unfold IsOnCurve.
  mcall (bigAffineToField_run x y m). fold X Y.
  repeat mstep.
  lazymatch goal with
  | |- context [ fieldVal.Equals ?a ?b ?mm ] => rewrite (Equals_run a b mm)
  end.
  fsimpl. fold X Y.
  assert (E1 : fnormalize (fmul Y Y) = (Y * Y) mod fieldPrime).
  { change ((Y * Y) mod fieldPrime) with (fnormalize (Y * Y)).
    apply (proj1 (fnormalize_feq _ _)). apply feq_fmul. }
  assert (E2 : fnormalize (fmul (fmul X X) X + 7)
               = (X * X * X + 7) mod fieldPrime).
  { change ((X * X * X + 7) mod fieldPrime) with (fnormalize (X * X * X + 7)).
    apply (proj1 (fnormalize_feq _ _)). feq_clean. reflexivity. }
  rewrite E1, E2. eexists. split; [reflexivity|].
  split; intros; fsimpl; reflexivity.
Qed.

(** ** What [Add] and [Double] leave alone *)

Lemma safe_Add (n0 b0 : nat) (x1 y1 x2 y2 : ptr) :
  safe n0 b0 no_cell (Add x1 y1 x2 y2)
       (fun r => r = (x2, y2) \/ r = (x1, y1) \/
                 ((b0 <= fst r)%nat /\ (b0 <= snd r)%nat)).
Proof.
  unfold Add. unfold_methods.
  repeat first [ safe_bind_prim | safe_leaf ]; try cell_side.
  apply safe_if; [apply safe_ret; auto|].
  repeat first [ safe_bind_prim | safe_leaf ]; try cell_side.
  apply safe_if; [apply safe_ret; auto|].
  eapply safe_bind; [apply safe_bigAffineToField|]. intros [fx1 fy1] [H1 H2].
  eapply safe_bind; [apply safe_bigAffineToField|]. intros [fx2 fy2] [H3 H4].
  cbn [fst snd] in *.
  repeat first [ safe_bind_prim | safe_leaf ]; try cell_side.
  eapply safe_bind.
  { apply safe_addJacobian; left; assumption. }
  intros _ _. eapply safe_weaken.
  { apply safe_fieldJacobianToBigAffine; left; assumption. }
  cbv beta. auto.
Qed.

Lemma safe_Double (n0 b0 : nat) (x1 y1 : ptr) :
  safe n0 b0 no_cell (Double x1 y1)
       (fun r => (b0 <= fst r)%nat /\ (b0 <= snd r)%nat).
Proof.
  unfold Double. unfold_methods.
  repeat first [ safe_bind_prim | safe_leaf ]; try cell_side.
  apply safe_if.
  { do 2 safe_bind_prim. apply safe_ret. cbv beta in *. cbn [fst snd]. lia. }
  eapply safe_bind; [apply safe_bigAffineToField|]. intros [fx1 fy1] [H1 H2].
  cbn [fst snd] in *.
  repeat first [ safe_bind_prim | safe_leaf ]; try cell_side.
  eapply safe_bind.
  { apply safe_doubleJacobian; left; assumption. }
  intros _ _. apply safe_fieldJacobianToBigAffine; left; assumption.
Qed.

(** X8: [Add] returns for every four big integers; the pair it returns is
    one of the two operands or two new big integers, and no big integer or
    field value that existed before the call is changed. *)
Theorem Add_footprint (x1 y1 x2 y2 : ptr) (m : mem) :
  exists rx ry m', Add x1 y1 x2 y2 m = Some ((rx, ry), m') /\
    ((rx, ry) = (x2, y2) \/ (rx, ry) = (x1, y1) \/
     ((bnext m <= rx)%nat /\ (bnext m <= ry)%nat)) /\
    (forall p, (p < bnext m)%nat -> big m' p = big m p) /\
    (forall q, (q < fnext m)%nat -> fld m' q = fld m q).
Proof.
  destruct (safe_Add (fnext m) (bnext m) x1 y1 x2 y2 m (le_n _) (le_n _))
    as ([rx ry] & m' & E & H & (_ & _ & Hf & Hb)).
  exists rx, ry, m'. split; [exact E|]. cbn [fst snd] in *.
  repeat split; auto.
Qed.

(** X9: [Double] returns for every pair of big integers, the two big
    integers it returns are new, and no big integer or field value that
    existed before the call is changed. *)
Theorem Double_footprint (x1 y1 : ptr) (m : mem) :
  exists rx ry m', Double x1 y1 m = Some ((rx, ry), m') /\
    (bnext m <= rx)%nat /\ (bnext m <= ry)%nat /\
    (forall p, (p < bnext m)%nat -> big m' p = big m p) /\
    (forall q, (q < fnext m)%nat -> fld m' q = fld m q).
Proof.
  destruct (safe_Double (fnext m) (bnext m) x1 y1 m (le_n _) (le_n _))
    as ([rx ry] & m' & E & (Hx & Hy) & (_ & _ & Hf & Hb)).
  exists rx, ry, m'. split; [exact E|]. cbn [fst snd] in *.
  repeat split; auto.
Qed.

(** ** Doubling through [Add] and through [Double] *)

Lemma doubleJacobian_run (x1 y1 z1 x3 y3 z3 : ptr) (m : mem) :
  doubleJacobian x1 y1 z1 x3 y3 z3 m
  = Some (tt,
      fwrite (fwrite (fwrite m
        x3 (fst (fst (double_values (fld m x1) (fld m y1) (fld m z1)))))
        y3 (snd (fst (double_values (fld m x1) (fld m y1) (fld m z1)))))
        z3 (snd (double_values (fld m x1) (fld m y1) (fld m z1)))).
Proof.
  unfold doubleJacobian, double_values. do 3 mstep0.
  destruct (fnormalize (fld m y1) =? 0); cbv zeta; cbn [fst snd].
  - do 2 mstep0. reflexivity.
  - do 2 mstep0. reflexivity.
Qed.

Lemma double_values_feq (X Y Z X' Y' Z' : Z) :
  feq X X' -> feq Y Y' -> feq Z Z' ->
  double_values X Y Z = double_values X' Y' Z'.
Proof.
  intros HX HY HZ. unfold double_values.
  rewrite (HY : fnormalize Y = fnormalize Y').
  destruct (fnormalize Y' =? 0); [reflexivity|]. cbv zeta.
  assert (E1 : fnormalize (fmul (3 * fmul X X) (3 * fmul X X)
                 - 2 * (2 * (fmul (X + fmul Y Y) (X + fmul Y Y)
                             - fmul X X - fmul (fmul Y Y) (fmul Y Y))))
             = fnormalize (fmul (3 * fmul X' X') (3 * fmul X' X')
                 - 2 * (2 * (fmul (X' + fmul Y' Y') (X' + fmul Y' Y')
                             - fmul X' X' - fmul (fmul Y' Y') (fmul Y' Y'))))).
  { apply (proj1 (fnormalize_feq _ _)). rewrite HX, HY. reflexivity. }
  rewrite E1. f_equal; [f_equal|].
  - apply (proj1 (fnormalize_feq _ _)). rewrite HX, HY. reflexivity.
  - apply (proj1 (fnormalize_feq _ _)). rewrite HY, HZ. reflexivity.
Qed.

Lemma double_values_zero_y (X Z : Z) : double_values X 0 Z = (0, 0, 0).
Proof. reflexivity. Qed.

Lemma affine_of_zero (Z : Z) : affine_of (0, 0, Z) = (0, 0).
Proof. reflexivity. Qed.

Lemma bnext_normalized4 x1 y1 x2 y2 m :
  bnext (normalized4 x1 y1 x2 y2 m) = bnext m.
Proof. unfold normalized4, normalized. rewrite !bnext_fwrite. reflexivity. Qed.

(** The values [fieldJacobianToBigAffine] returns. *)
Lemma fieldJacobianToBigAffine_returned (x y z : ptr) (m : mem) :
  (x < fnext m)%nat -> (y < fnext m)%nat -> (z < fnext m)%nat ->
  x <> y -> x <> z -> y <> z ->
  returned (fieldJacobianToBigAffine x y z m)
  = Some (affine_of (fld m x, fld m y, fld m z)).
Proof.
  intros Hx Hy Hz Nxy Nxz Nyz.
  destruct (fieldJacobianToBigAffine_spec x y z m Hx Hy Hz Nxy Nxz Nyz)
    as (m' & E & _ & _ & _ & Bx & By & _).
  rewrite E. unfold returned, affine_of. rewrite Bx, By. reflexivity.
Qed.

Lemma addJacobian_equal_z (x1 y1 z x2 y2 x3 y3 z3 : ptr) (m : mem) :
  fnormalize (fld m z) <> 0 ->
  addJacobian x1 y1 z x2 y2 z x3 y3 z3 m
  = addZ1EqualsZ2 x1 y1 z x2 y2 x3 y3 z3 m.
Proof.
  intros Hz. unfold addJacobian. do 6 mstep0.
  destruct (Z.eqb_spec (fnormalize (fld m z)) 0) as [E|_]; [contradiction|].
  rewrite Z.eqb_refl. reflexivity.
Qed.

Lemma addZ1EqualsZ2_equal (x1 y1 z1 x2 y2 x3 y3 z3 : ptr) (m : mem) :
  fnormalize (fld m x1) = fnormalize (fld m x2) ->
  fnormalize (fld m y1) = fnormalize (fld m y2) ->
  addZ1EqualsZ2 x1 y1 z1 x2 y2 x3 y3 z3 m
  = doubleJacobian x1 y1 z1 x3 y3 z3 (normalized4 x1 y1 x2 y2 m).
Proof.
  intros Hx Hy. addZ_normalize x1 y1 x2 y2 m.
  rewrite Hx, Z.eqb_refl. mstep.
  rewrite (fld_normalized4_y1 x1 y1 x2 y2 m), (fld_normalized4_y2 x1 y1 x2 y2 m).
  rewrite Hy, Z.eqb_refl. reflexivity.
Qed.

Lemma addZ1EqualsZ2_opposite (x1 y1 z1 x2 y2 x3 y3 z3 : ptr) (m : mem) :
  fnormalize (fld m x1) = fnormalize (fld m x2) ->
  fnormalize (fld m y1) <> fnormalize (fld m y2) ->
  addZ1EqualsZ2 x1 y1 z1 x2 y2 x3 y3 z3 m
  = Some (tt, fwrite (fwrite (fwrite (normalized4 x1 y1 x2 y2 m) x3 0) y3 0) z3 0).
Proof.
  intros Hx Hy. addZ_normalize x1 y1 x2 y2 m.
  rewrite Hx, Z.eqb_refl. mstep.
  rewrite (fld_normalized4_y1 x1 y1 x2 y2 m), (fld_normalized4_y2 x1 y1 x2 y2 m).
  destruct (Z.eqb_spec (fnormalize (fld m y1)) (fnormalize (fld m y2))) as [E|_];
    [contradiction|].
  do 2 mstep0. reflexivity.
Qed.

Lemma sign_test (a b : Z) :
  (Z.sgn a =? 0) && (Z.sgn b =? 0) = true <-> a = 0 /\ b = 0.
Proof.
  rewrite andb_true_iff, !Z.eqb_eq, !Z.sgn_null_iff. reflexivity.
Qed.

Lemma Double_returned (x y : ptr) (m : mem) :
  big m y <> 0 ->
  returned (Double x y m)
  = Some (affine_of (double_values (Z.abs (big m x)) (Z.abs (big m y)) 1)).
Proof.
  intros Hy. unfold Double. mstep.
  destruct (Z.eqb_spec (Z.sgn (big m y)) 0) as [E|_].
  { rewrite Z.sgn_null_iff in E. contradiction. }
  mcall (bigAffineToField_run x y m). repeat mstep.
  erewrite bind_run by apply doubleJacobian_run. cbv beta. fsimpl.
  destruct (double_values (Z.abs (big m x)) (Z.abs (big m y)) 1)
    as [[X3 Y3] Z3]. cbn [fst snd].
  rewrite fieldJacobianToBigAffine_returned by ptr_side.
  fsimpl. reflexivity.
Qed.

(** [Add] on two points neither of which is (0, 0), up to the call of
    [addZ1EqualsZ2]: both operands are lifted with Z = 1. *)
Lemma Add_lifted (x1 y1 x2 y2 : ptr) (m : mem) :
  ~ (big m x1 = 0 /\ big m y1 = 0) ->
  ~ (big m x2 = 0 /\ big m y2 = 0) ->
  let n := fnext m in
  let m1 :=
    fwrite (falloc (falloc (falloc (falloc
      (fwrite (fwrite (falloc (falloc
        (fwrite (fwrite (falloc (falloc m))
           n (Z.abs (big m x1))) (S n) (Z.abs (big m y1)))))
        (S (S n)) (Z.abs (big m x2))) (S (S (S n))) (Z.abs (big m y2)))))))
      (S (S (S (S (S (S (S n))))))) 1 in
  Add x1 y1 x2 y2 m
  = (addZ1EqualsZ2 n (S n) (S (S (S (S (S (S (S n)))))))
       (S (S n)) (S (S (S n)))
       (S (S (S (S n)))) (S (S (S (S (S n))))) (S (S (S (S (S (S n))))))
     ≫= fun _ =>
     fieldJacobianToBigAffine
       (S (S (S (S n)))) (S (S (S (S (S n))))) (S (S (S (S (S (S n))))))) m1.
Proof.
  intros H1 H2 n m1. unfold Add. do 2 mstep.
  destruct ((Z.sgn (big m x1) =? 0) && (Z.sgn (big m y1) =? 0)) eqn:E1.
  { apply sign_test in E1. contradiction. }
  do 2 mstep.
  destruct ((Z.sgn (big m x2) =? 0) && (Z.sgn (big m y2) =? 0)) eqn:E2.
  { apply sign_test in E2. contradiction. }
  mcall (bigAffineToField_run x1 y1 m).
  erewrite bind_run by apply bigAffineToField_run. cbv beta. fsimpl.
  do 5 mstep0. next_simpl.
  fold n. fold m1.
  unfold mbind, M_bind.
  rewrite addJacobian_equal_z; [reflexivity|].
  subst m1. fsimpl. discriminate.
Qed.

Ltac lifted_side :=
  repeat first [ rewrite fnext_fwrite | rewrite fnext_normalized4
               | rewrite fnext_falloc ];
  solve [ lia | congruence ].

Lemma Add_same_returned (x y : ptr) (m : mem) :
  ~ (big m x = 0 /\ big m y = 0) ->
  returned (Add x y x y m)
  = Some (affine_of (double_values (Z.abs (big m x)) (Z.abs (big m y)) 1)).
Proof.
  intros H. pose proof (Add_lifted x y x y m H H) as E. cbv zeta in E.
  rewrite E. clear E. unfold mbind, M_bind.
  rewrite addZ1EqualsZ2_equal by (fsimpl; reflexivity).
  rewrite doubleJacobian_run.
  rewrite (double_values_feq _ _ _ (Z.abs (big m x)) (Z.abs (big m y)) 1)
    by (rewrite fld_normalized4_feq; fsimpl; reflexivity).
  destruct (double_values (Z.abs (big m x)) (Z.abs (big m y)) 1)
    as [[X3 Y3] Z3]. cbn [fst snd].
  rewrite fieldJacobianToBigAffine_returned by lifted_side.
  fsimpl. reflexivity.
Qed.

Lemma Double_zero_returned (x y : ptr) (m : mem) :
  big m y = 0 -> returned (Double x y m) = Some (0, 0).
Proof.
  intros Hy. unfold Double. mstep. rewrite Hy. cbn [Z.sgn Z.eqb].
  do 2 mstep. rewrite ret_run. unfold returned. fsimpl. reflexivity.
Qed.

(** X10: adding a point to itself with [Add] returns the same two values as
    [Double] on that point, for every pair of big integers (the pair (0, 0)
    and a pair with y = 0 included). *)
Theorem Add_same_point_is_Double (x y : ptr) (m : mem) :
  returned (Add x y x y m) = returned (Double x y m).
Proof.
  destruct (Z.eq_dec (big m y) 0) as [Hy|Hy].
  - rewrite (Double_zero_returned x y m Hy).
    destruct (Z.eq_dec (big m x) 0) as [Hx|Hx].
    + unfold Add. do 2 mstep. rewrite Hx, Hy. cbn [Z.sgn Z.eqb andb].
      rewrite ret_run. unfold returned. rewrite Hx, Hy. reflexivity.
    + rewrite Add_same_returned by tauto.
      rewrite Hy. reflexivity.
  - rewrite Add_same_returned by tauto.
    rewrite Double_returned by assumption. reflexivity.
Qed.

(** X11: [Add] of two points, neither of them (0, 0), whose x are equal
    modulo P and whose y differ modulo P (signs dropped) returns (0, 0),
    the pair that stands for the point at infinity. *)
Theorem Add_opposite (x1 y1 x2 y2 : ptr) (m : mem) :
  big m x1 <> 0 \/ big m y1 <> 0 ->
  big m x2 <> 0 \/ big m y2 <> 0 ->
  Z.abs (big m x1) mod fieldPrime = Z.abs (big m x2) mod fieldPrime ->
  Z.abs (big m y1) mod fieldPrime <> Z.abs (big m y2) mod fieldPrime ->
  returned (Add x1 y1 x2 y2 m) = Some (0, 0).
Proof.
  intros H1 H2 Hx Hy.
  assert (H1' : ~ (big m x1 = 0 /\ big m y1 = 0)) by tauto.
  assert (H2' : ~ (big m x2 = 0 /\ big m y2 = 0)) by tauto.
  pose proof (Add_lifted x1 y1 x2 y2 m H1' H2') as E. cbv zeta in E.
  rewrite E. clear E. unfold mbind, M_bind.
  rewrite addZ1EqualsZ2_opposite by (fsimpl; assumption).
  rewrite fieldJacobianToBigAffine_returned by lifted_side.
  fsimpl. reflexivity.
Qed.

Lemma Add_opposite_witness :
  returned (Add 0 1 2 3 (mem_of_bigs [1; 2; 1; 3])) = Some (0, 0).
Proof.
  apply Add_opposite.
  - left. vm_compute. discriminate.
  - left. vm_compute. discriminate.
  - vm_compute. reflexivity.
  - vm_compute. discriminate.
Defined.

(** ** Short scalars in [ScalarBaseMult] *)

Lemma moduloReduce_byte (b : byte) :
  moduloReduce [b] = if byte.unsigned b =? 0 then [] else [b].
Proof. destruct b; vm_compute; reflexivity. Qed.

Lemma bind_assoc {A B C : Type} (c : M A) (k : A -> M B) (k' : B -> M C)
    (m : mem) :
  ((c ≫= k) ≫= k') m = (c ≫= (fun a => k a ≫= k')) m.
Proof. unfold mbind, M_bind. destruct (c m) as [[a m1]|]; reflexivity. Qed.

(** X13: [ScalarBaseMult] of a one-byte scalar b other than zero returns the
    affine image of the table entry bytePoints[31][b]: the last byte of the
    scalar indexes the last of the 32 windows. *)
Theorem ScalarBaseMult_one_byte (bytePoints : Z -> Z -> Z * Z * Z)
    (b : byte) (m : mem) :
  byte.unsigned b <> 0 ->
  returned (ScalarBaseMult bytePoints [b] m)
  = Some (affine_of (bytePoints 31 (byte.unsigned b))).
Proof.
  intros Hb. unfold ScalarBaseMult. rewrite moduloReduce_byte.
  destruct (Z.eqb_spec (byte.unsigned b) 0) as [E|_]; [contradiction|].
  cbv zeta. cbn [length]. do 3 mstep. cbn [scalarBaseMult_loop].
  change (32 - Z.of_nat 1 + 0) with 31.
  rewrite bind_assoc.
  rewrite (bind_run _ _ _ _ _
             (lift_run _ _ _ (bytePoints_at_in_range bytePoints 31 b ltac:(lia)))).
  destruct (bytePoints 31 (byte.unsigned b)) as [[v0 v1] v2].
  repeat first [ mstep | rewrite bind_assoc ].
  unfold addJacobian. repeat first [ mstep | rewrite bind_assoc ].
  change (fnormalize 0 =? 0) with true. cbv iota.
  repeat first [ mstep | rewrite bind_assoc ].
  rewrite (bind_run _ _ _ _ _ (ret_run tt _)).
  rewrite fieldJacobianToBigAffine_returned by ptr_side.
  fsimpl. reflexivity.
Qed.

Lemma ScalarBaseMult_one_byte_witness :
  returned (ScalarBaseMult (fun w b => (w, b, 1)) [Byte.x05] (mem_of_bigs []))
  = Some (affine_of (31, 5, 1)).
Proof.
  apply (ScalarBaseMult_one_byte (fun w b => (w, b, 1)) Byte.x05 (mem_of_bigs [])).
  vm_compute. discriminate.
Defined.

(** ** What [addZ1EqualsZ2] writes *)

(** X14: [addZ1EqualsZ2] returns for every eight field values, whatever cells
    they share.  It changes no big integer.  Of the field values that
    existed before the call and are not one of its three outputs, it leaves
    x1, y1, x2 and y2 normalized and every other one, z1 among them, as it
    was. *)
Theorem addZ1EqualsZ2_effects (x1 y1 z1 x2 y2 x3 y3 z3 : ptr) (m : mem) :
  exists m', addZ1EqualsZ2 x1 y1 z1 x2 y2 x3 y3 z3 m = Some (tt, m') /\
    (forall q, (q < fnext m)%nat -> q <> x3 -> q <> y3 -> q <> z3 ->
       fld m' q
       = if Nat.eqb q x1 || Nat.eqb q y1 || Nat.eqb q x2 || Nat.eqb q y2
         then fnormalize (fld m q) else fld m q) /\
    (forall p, (p < bnext m)%nat -> big m' p = big m p).
Proof.
  pose (S := fun q : ptr => q = x3 \/ q = y3 \/ q = z3).
  unfold addZ1EqualsZ2. do 4 mstep0.
  lazymatch goal with
  | |- context [ @mbind M _ _ _ _ _ ?mm ] =>
      change mm with (normalized4 x1 y1 x2 y2 m)
  end.
  lazymatch goal with
  | |- context [ ?c (normalized4 x1 y1 x2 y2 m) = _ ] =>
      assert (Hs : safe (fnext m) (bnext m) S c (fun _ => True))
  end.
  { safe_tac; try (right; unfold S; tauto).
    apply safe_doubleJacobian; right; unfold S; tauto. }
  destruct (Hs (normalized4 x1 y1 x2 y2 m))
    as ([] & m' & E & _ & (_ & _ & Hf & Hb)).
  { rewrite fnext_normalized4. apply le_n. }
  { rewrite bnext_normalized4. apply le_n. }
  exists m'. split; [exact E|]. split.
  - intros q Hq N1 N2 N3. rewrite Hf; [apply fld_normalized4 | exact Hq |].
    unfold S. tauto.
  - intros p Hp. rewrite Hb by exact Hp.
    unfold normalized4, normalized. rewrite !big_fwrite. reflexivity.
Qed.

(** ** The constants of [initS256] *)

Lemma lattice_vector_1 :
  curve_a1 + curve_b1 * curve_lambda
  = ((curve_a1 + curve_b1 * curve_lambda) / curve_N) * curve_N.
Proof. vm_compute. reflexivity. Qed.

Lemma lattice_vector_2 :
  curve_a2 + curve_b2 * curve_lambda
  = ((curve_a2 + curve_b2 * curve_lambda) / curve_N) * curve_N.
Proof. vm_compute. reflexivity. Qed.

(** X15: the constants [initS256] sets fit together.  The base point is on
    the curve; P + 1 is divided by 4 without remainder to give q, and N is
    odd; lambda and beta are cube roots of 1 other than 1, modulo N and
    modulo P; the two lattice vectors have determinant N; and for all
    integers k, c1 and c2 the pair k1 = k - c1 a1 - c2 a2,
    k2 = - (c1 b1 + c2 b2) satisfies k1 + k2 lambda = k modulo N, which is
    what lets [ScalarMult] replace k by two half-length scalars. *)
Theorem initS256_consistent :
  (curve_Gy * curve_Gy) mod curve_P
  = (curve_Gx * curve_Gx * curve_Gx + curve_B) mod curve_P /\
  4 * curve_q = curve_P + 1 /\
  2 * curve_halfOrder + 1 = curve_N /\
  curve_lambda <> 1 /\ 0 < curve_lambda < curve_N /\
  (curve_lambda * curve_lambda * curve_lambda) mod curve_N = 1 /\
  curve_beta <> 1 /\ 0 < curve_beta < curve_P /\
  (curve_beta * curve_beta * curve_beta) mod curve_P = 1 /\
  curve_a1 * curve_b2 - curve_a2 * curve_b1 = curve_N /\
  (forall k c1 c2 : Z,
     ((k - c1 * curve_a1 - c2 * curve_a2)
      + (- (c1 * curve_b1 + c2 * curve_b2)) * curve_lambda) mod curve_N
     = k mod curve_N).
Proof.
  split; [vm_compute; reflexivity|].
  split; [vm_compute; reflexivity|].
  split; [vm_compute; reflexivity|].
  split; [vm_compute; discriminate|].
  split; [split; reflexivity|].
  split; [vm_compute; reflexivity|].
  split; [vm_compute; discriminate|].
  split; [split; reflexivity|].
  split; [vm_compute; reflexivity|].
  split; [vm_compute; reflexivity|].
  intros k c1 c2.
  replace ((k - c1 * curve_a1 - c2 * curve_a2)
           + (- (c1 * curve_b1 + c2 * curve_b2)) * curve_lambda)
    with (k - c1 * (curve_a1 + curve_b1 * curve_lambda)
            - c2 * (curve_a2 + curve_b2 * curve_lambda)) by ring.
  rewrite lattice_vector_1, lattice_vector_2.
  set (q1 := (curve_a1 + curve_b1 * curve_lambda) / curve_N).
  set (q2 := (curve_a2 + curve_b2 * curve_lambda) / curve_N).
  replace (k - c1 * (q1 * curve_N) - c2 * (q2 * curve_N))
    with (k + (- c1 * q1 - c2 * q2) * curve_N) by ring.
  apply Z_mod_plus_full.
Qed.

(** X16: the two half-scalars [ScalarMult] works with recombine to the
    scalar: with (k1, k2, s1, s2) the magnitudes and signs that the
    splitting step hands over, s1 |k1| + s2 |k2| lambda = k modulo N. *)
Theorem splitK_recombines (k : list byte) :
  let '(k1, k2, signK1, signK2) := splitK k in
  (signK1 * be_value k1 + signK2 * be_value k2 * curve_lambda) mod curve_N
  = be_value k mod curve_N.
Proof.
  unfold splitK. cbv zeta. rewrite !be_value_big_Bytes.
  set (K := be_value k).
  set (c1 := round_div (curve_b2 * K) curve_N).
  set (c2 := round_div (- curve_b1 * K) curve_N).
  rewrite !(Z.mul_comm (Z.sgn _) (Z.abs _)), !Z.abs_sgn.
  replace (K - c1 * curve_a1 - c2 * curve_a2
           + - (c1 * curve_b1 + c2 * curve_b2) * curve_lambda)
    with (K - c1 * (curve_a1 + curve_b1 * curve_lambda)
            - c2 * (curve_a2 + curve_b2 * curve_lambda)) by ring.
  rewrite lattice_vector_1, lattice_vector_2.
  set (q1 := (curve_a1 + curve_b1 * curve_lambda) / curve_N).
  set (q2 := (curve_a2 + curve_b2 * curve_lambda) / curve_N).
  replace (K - c1 * (q1 * curve_N) - c2 * (q2 * curve_N))
    with (K + (- c1 * q1 - c2 * q2) * curve_N) by ring.
  apply Z_mod_plus_full.
Qed.
